(** * raml2html: the annotation pass, the helpers, the loader and the
    command line of [lib/raml2html.js], embedded in Rocq.

    JavaScript objects live in a store addressed by references, so that the
    in-place writes of [parseBaseUri] and [traverse] and the identity of the
    object they return are visible.  Arrays that a function edits in place
    ([lockIconHelper]) are threaded through as state.  Callbacks are recorded
    in the log of a small event loop, which separates what a call does before
    it returns from what it leaves for a later tick. *)

From Stdlib Require Import Ascii String ZArith Lia.
From stdpp Require Import gmap strings list.

Local Open Scope string_scope.

Set Warnings "-register-all".

(** ** Strings

    A JavaScript string is a sequence of code units; a unit is modelled as a
    Rocq [ascii].  The class [\w] of a regular expression without flags is
    exactly [A-Za-z0-9_]; every other unit belongs to [\W]. *)

Definition is_digit (c : ascii) : bool :=
  let n := nat_of_ascii c in (48 <=? n)%nat && (n <=? 57)%nat.

Definition is_letter (c : ascii) : bool :=
  let n := nat_of_ascii c in
  ((65 <=? n)%nat && (n <=? 90)%nat) || ((97 <=? n)%nat && (n <=? 122)%nat).

Definition is_underscore (c : ascii) : bool :=
  (nat_of_ascii c =? 95)%nat.

(** [\w] *)
Definition is_word_char (c : ascii) : bool :=
  is_letter c || is_digit c || is_underscore c.

(** [s.replace(/\W/g, '_')]: every unit of [\W] becomes an underscore. *)
Fixpoint replace_nonword (s : string) : string :=
  match s with
  | EmptyString => EmptyString
  | String c rest =>
      String (if is_word_char c then c else "_"%char) (replace_nonword rest)
  end.

Fixpoint all_chars (p : ascii -> bool) (s : string) : bool :=
  match s with
  | EmptyString => true
  | String c rest => p c && all_chars p rest
  end.

Fixpoint skip (n : nat) (s : string) : string :=
  match n, s with
  | O, _ => s
  | S _, EmptyString => EmptyString
  | S m, String _ rest => skip m rest
  end.

(** The first occurrence of [pat] in [s], as the text before it and the text
    after it; [None] when [pat] does not occur. *)
Fixpoint search (pat s : string) : option (string * string) :=
  if String.prefix pat s then Some (EmptyString, skip (String.length pat) s)
  else
    match s with
    | EmptyString => None
    | String c rest =>
        match search pat rest with
        | Some (before, after) => Some (String c before, after)
        | None => None
        end
    end.

(** The replacement text of [String.prototype.replace] when the pattern is a
    string (no captures): in [repl], [$$] stands for a dollar sign, [$&] for
    the matched text, [$`] for the text before the match and [$'] for the text
    after it; a dollar sign followed by anything else stands for itself. *)
Fixpoint getSubstitution (matched before after repl : string) : string :=
  match repl with
  | EmptyString => EmptyString
  | String c rest =>
      if Ascii.eqb c "$" then
        match rest with
        | EmptyString => String c EmptyString
        | String d rest' =>
            if Ascii.eqb d "$" then
              String "$" (getSubstitution matched before after rest')
            else if Ascii.eqb d "&" then
              matched ++ getSubstitution matched before after rest'
            else if Ascii.eqb d "`" then
              before ++ getSubstitution matched before after rest'
            else if Ascii.eqb d "'" then
              after ++ getSubstitution matched before after rest'
            else
              String c (String d (getSubstitution matched before after rest'))
        end
      else String c (getSubstitution matched before after rest)
  end.

(** [s.replace(pat, repl)] for a string pattern: only the first occurrence is
    replaced, and [s] is returned as it is when there is none. *)
Definition replace (s pat repl : string) : string :=
  match search pat s with
  | None => s
  | Some (before, after) =>
      before ++ getSubstitution pat before after repl ++ after
  end.

(** ** Values

    The values a caller can hand to the loader, store in a document or put in
    a [securedBy] list.  A number is kept with the text it converts to, as
    [Number.prototype.toString] prints it ([0] for both zeros, [NaN],
    [1e+21], ...); an object is a reference into the store, to a plain
    object (one with no [toString] of its own); a [Buffer] is kept with the
    text it decodes to; [VError] is an [Error] object with its message. *)

Inductive JsValue : Type :=
  | VUndefined
  | VNull
  | VBoolean (b : bool)
  | VNumber (text : string)
  | VString (s : string)
  | VBuffer (content : string)
  | VObject (ref : nat)
  | VError (message : string).

(** [typeof v] *)
Definition typeof (v : JsValue) : string :=
  match v with
  | VUndefined => "undefined"
  | VNull => "object"
  | VBoolean _ => "boolean"
  | VNumber _ => "number"
  | VString _ => "string"
  | VBuffer _ | VObject _ | VError _ => "object"
  end.

(** [v instanceof Buffer] *)
Definition instanceof_Buffer (v : JsValue) : bool :=
  match v with VBuffer _ => true | _ => false end.

(** [v === null] *)
Definition is_null (v : JsValue) : bool :=
  match v with VNull => true | _ => false end.

(** The truth value of [v] in a condition.  The numbers that count as false
    are the two zeros and [NaN]; they print as [0] and [NaN], and no other
    number does. *)
Definition truthy (v : JsValue) : bool :=
  match v with
  | VUndefined | VNull => false
  | VBoolean b => b
  | VNumber text => negb (String.eqb text "0" || String.eqb text "NaN")
  | VString s => negb (String.eqb s "")
  | VBuffer _ | VObject _ | VError _ => true
  end.

(** The string [v] converts to (['' + v], the second argument of [replace]).
    A plain object prints as [[object Object]]; an [Error] prints its name,
    followed by its message when it has one. *)
Definition toString (v : JsValue) : string :=
  match v with
  | VUndefined => "undefined"
  | VNull => "null"
  | VBoolean true => "true"
  | VBoolean false => "false"
  | VNumber text => text
  | VString s => s
  | VBuffer content => content
  | VObject _ => "[object Object]"
  | VError message =>
      if String.eqb message "" then "Error" else "Error: " ++ message
  end.

(** ** The store

    An object is kept with the properties the program reads or writes; a
    property that may be missing is an [option].  [uriParameters] lists the
    entries a [for ... in] visits, in that order, and [resources] those of
    them that pass the [hasOwnProperty] test of [traverse].  A parameter
    definition is an object the program never looks into: it is kept as its
    reference. *)

Abbreviation loc := nat (only parsing).
Abbreviation ParamRef := nat (only parsing).

Module Obj.

Record t : Type := mk {
  baseUri : option string;
  version : JsValue;
  relativeUri : option string;
  uriParameters : option (list (string * ParamRef));
  resources : option (list (string * loc));
  parentUrl : option string;
  uniqueId : option string;
  allUriParameters : option (list ParamRef)
}.

Definition set_baseUri (v : string) (o : t) : t :=
  mk (Some v) (version o) (relativeUri o) (uriParameters o)
     (resources o) (parentUrl o) (uniqueId o) (allUriParameters o).

Definition set_parentUrl (v : string) (o : t) : t :=
  mk (baseUri o) (version o) (relativeUri o) (uriParameters o)
     (resources o) (Some v) (uniqueId o) (allUriParameters o).

Definition set_uniqueId (v : string) (o : t) : t :=
  mk (baseUri o) (version o) (relativeUri o) (uriParameters o)
     (resources o) (parentUrl o) (Some v) (allUriParameters o).

Definition set_allUriParameters (v : list ParamRef) (o : t) : t :=
  mk (baseUri o) (version o) (relativeUri o) (uriParameters o)
     (resources o) (parentUrl o) (uniqueId o) (Some v).

End Obj.

Abbreviation Obj := Obj.t.
Abbreviation Heap := (gmap nat Obj.t).

(** [a + b] where each operand is a string or [undefined]: a concatenation as
    soon as one operand is a string, [NaN] (no string) otherwise. *)
Definition plus (a b : option string) : option string :=
  match a, b with
  | None, None => None
  | _, _ => Some (default "undefined" a ++ default "undefined" b)
  end.

(** The values of a parameter mapping, in iteration order. *)
Definition values (m : option (list (string * ParamRef))) : list ParamRef :=
  default [] (fmap (M := list) snd <$> m).

(** The children a [for ... in] over [o.resources] visits; none when the
    property is missing. *)
Definition children (o : Obj) : list loc :=
  default [] (fmap (M := list) snd <$> Obj.resources o).

(** ** Base-URI resolver *)

Definition parseBaseUri (ramlObj : loc) (h : Heap) : option (loc * Heap) :=
  o ← h !! ramlObj;
  match Obj.baseUri o with
  | Some uri =>
      if truthy (VString uri) then
        Some (ramlObj,
              <[ramlObj := Obj.set_baseUri
                             (replace uri "{version}" (toString (Obj.version o))) o]> h)
      else Some (ramlObj, h)
  | None => Some (ramlObj, h)
  end.

(** ** Resource tree annotator *)

Definition makeUniqueId (resource : Obj) : option string :=
  fullUrl ← plus (Obj.parentUrl resource) (Obj.relativeUri resource);
  Some (replace_nonword fullUrl).

(** The writes of one loop iteration of [traverse] to [resource], up to the
    recursive call.  [push.apply] copies the inherited entries into the fresh
    array, so the caller's array is read and never shared. *)
Definition annotate_resource (parentUrl : option string)
    (allUriParameters : option (list ParamRef)) (resource : Obj) : option Obj :=
  let resource :=
    Obj.set_parentUrl
      (match parentUrl with
       | Some p => if truthy (VString p) then p else ""
       | None => ""
       end) resource in
  id ← makeUniqueId resource;
  let resource := Obj.set_uniqueId id resource in
  let resource := Obj.set_allUriParameters [] resource in
  let resource :=
    match allUriParameters with
    | Some inherited =>
        Obj.set_allUriParameters
          (default [] (Obj.allUriParameters resource) ++ inherited) resource
    | None => resource
    end in
  let resource :=
    match Obj.uriParameters resource with
    | Some own =>
        Obj.set_allUriParameters
          (default [] (Obj.allUriParameters resource) ++ own.*2) resource
    | None => resource
    end in
  Some resource.

(** One iteration of the loop: annotate the child in the store, then descend
    into it with the values read back from it. *)
Definition visit
    (recur : loc → option string → option (list ParamRef) → Heap → option (loc * Heap))
    (parentUrl : option string) (allUriParameters : option (list ParamRef))
    (h : Heap) (resource : loc) : option Heap :=
  r ← h !! resource;
  r' ← annotate_resource parentUrl allUriParameters r;
  let h := <[resource := r']> h in
  '(_, h) ← recur resource (plus (Obj.parentUrl r') (Obj.relativeUri r'))
                  (Obj.allUriParameters r') h;
  Some h.

Fixpoint for_in (body : Heap → loc → option Heap) (entries : list loc)
    (h : Heap) : option Heap :=
  match entries with
  | [] => Some h
  | resource :: rest => h' ← body h resource; for_in body rest h'
  end.

(** [traverse(ramlObj, parentUrl, allUriParameters)].  The recursion follows
    references through the store, so it is bounded by [fuel]; [None] is a run
    that needs more, or that meets a reference with no object behind it. *)
Fixpoint traverse (fuel : nat) (ramlObj : loc) (parentUrl : option string)
    (allUriParameters : option (list ParamRef)) (h : Heap) : option (loc * Heap) :=
  match fuel with
  | O => None
  | S fuel =>
      o ← h !! ramlObj;
      h' ← for_in (visit (traverse fuel) parentUrl allUriParameters) (children o) h;
      Some (ramlObj, h')
  end.

(** ** Render helpers

    A helper returns either a [handlebars.SafeString] (markup the engine does
    not escape again) or a plain string.  The Markdown converter and the
    highlighter are the libraries' functions from text to markup. *)

Inductive Rendered : Type :=
  | SafeString (markup : string)
  | Plain (text : string).

Record Engines : Type := {
  marked : string → string;
  highlightAuto : string → string
}.

Definition markDownHelper (e : Engines) (text : option string) : Rendered :=
  match text with
  | Some t =>
      if truthy (VString t) && negb (String.length t =? 0)%nat
      then SafeString (marked e t) else Plain ""
  | None => Plain ""
  end.

Definition highlightHelper (e : Engines) (text : option string) : Rendered :=
  match text with
  | Some t =>
      if truthy (VString t) && negb (String.length t =? 0)%nat
      then SafeString (highlightAuto e t) else Plain ""
  | None => Plain ""
  end.

(** [xs.indexOf(null)]: the first position holding [null], or -1. *)
Fixpoint indexOf_null (xs : list JsValue) : Z :=
  match xs with
  | [] => (-1)%Z
  | x :: rest =>
      if is_null x then 0%Z
      else let i := indexOf_null rest in
           if (i =? -1)%Z then (-1)%Z else (i + 1)%Z
  end.

(** [xs.splice(index, 1)] for an index that is not negative: the array
    without the entry at [index]. *)
Definition splice_one (index : Z) (xs : list JsValue) : list JsValue :=
  delete (Z.to_nat index) xs.

Definition quote : string := String (ascii_of_nat 34) EmptyString.

Definition lock_icon : string :=
  " <span class=" ++ quote ++ "glyphicon glyphicon-lock" ++ quote
  ++ " title=" ++ quote ++ "Authentication required" ++ quote ++ "></span>".

(** [lockIconHelper(securedBy)]: the value returned, and the caller's array
    as the call leaves it ([None]: no array was passed). *)
Definition lockIconHelper (securedBy : option (list JsValue))
    : Rendered * option (list JsValue) :=
  match securedBy with
  | Some xs =>
      if negb (length xs =? 0)%nat then
        let index := indexOf_null xs in
        let xs := if negb (index =? -1)%Z then splice_one index xs else xs in
        if negb (length xs =? 0)%nat
        then (SafeString lock_icon, Some xs)
        else (Plain "", Some xs)
      else (Plain "", Some xs)
  | None => (Plain "", None)
  end.

(** The list without its first [null] entry, if it has one. *)
Fixpoint remove_one_null (xs : list JsValue) : list JsValue :=
  match xs with
  | [] => []
  | x :: rest => if is_null x then rest else x :: remove_one_null rest
  end.

(** The spec's condition for the marker: a scheme that is not [null] remains
    once a single [null] entry is removed. *)
Definition scheme_remains (securedBy : option (list JsValue)) : bool :=
  existsb (λ v, negb (is_null v)) (remove_one_null (default [] securedBy)).

(** ** Source loader

    The event loop keeps what has run so far ([log]) and the calls left for a
    later tick ([queue]).  A promise of the RAML parser is taken as settled:
    [then] leaves the call of the matching callback for a later tick. *)

Inductive Callback : Type := onSuccess | onError.

Inductive Event : Type :=
  | Invoked (callback : Callback) (argument : JsValue)
  | Ran (statement : string).

Record Loop : Type := {
  log : list Event;
  queue : list (Callback * JsValue)
}.

Definition idle : Loop := {| log := []; queue := [] |}.

(** A call made on the spot. *)
Definition call (cb : Callback) (arg : JsValue) (st : Loop) : Loop :=
  {| log := log st ++ [Invoked cb arg]; queue := queue st |}.

(** [process.nextTick(function () { cb(arg); })] *)
Definition nextTick (cb : Callback) (arg : JsValue) (st : Loop) : Loop :=
  {| log := log st; queue := queue st ++ [(cb, arg)] |}.

(** A statement of the caller. *)
Definition statement (name : string) (st : Loop) : Loop :=
  {| log := log st ++ [Ran name]; queue := queue st |}.

Inductive Settled : Type :=
  | Fulfilled (value : JsValue)
  | Rejected (reason : JsValue).

(** [promise.then(onSuccess, onError)] *)
Definition then_ (promise : Settled) (st : Loop) : Loop :=
  match promise with
  | Fulfilled value => nextTick onSuccess value st
  | Rejected reason => nextTick onError reason st
  end.

(** One turn of the loop runs the oldest call that was left. *)
Definition tick (st : Loop) : Loop :=
  match queue st with
  | [] => st
  | (cb, arg) :: rest => {| log := log st ++ [Invoked cb arg]; queue := rest |}
  end.

Fixpoint ticks (n : nat) (st : Loop) : Loop :=
  match n with
  | O => st
  | S n => ticks n (tick st)
  end.

(** The loop runs until nothing is left. *)
Definition run (st : Loop) : Loop := ticks (length (queue st)) st.

(** What the program gets from outside: the file system, the parser's
    promises, what [compileRamlObj] reports for a parsed document, and
    whether commander's [help()] ends the process itself (and with what
    status) or returns. *)
Record World : Type := {
  existsSync : string → bool;
  loadFile : string → Settled;
  load : string → Settled;
  compiled : JsValue → Settled;
  help_exits : option Z
}.

Definition argument_error : JsValue :=
  VError "sourceToRamlObj: You must supply either file, data or obj as source.".

Definition sourceToRamlObj (w : World) (source : JsValue) (st : Loop) : Loop :=
  if String.eqb (typeof source) "string" then
    if existsSync w (toString source)
    then then_ (loadFile w (toString source)) st
    else then_ (load w ("" ++ toString source)) st
  else if instanceof_Buffer source then
    then_ (load w ("" ++ toString source)) st
  else if String.eqb (typeof source) "object" then
    nextTick onSuccess source st
  else
    call onError argument_error st.

(** The event a waiting call becomes when its turn comes. *)
Definition fired (task : Callback * JsValue) : Event := Invoked task.1 task.2.

(** ** Command line *)

Inductive Output : Type :=
  | ConsoleError (line : string)
  | ConsoleLog (line : string)
  | Help
  | StdoutWrite (text : string)
  | WriteFile (path : JsValue) (data : string)
  | Exit (status : Z).

(** What commander leaves after [parse(process.argv)]: [input] is
    [undefined] without [-i], [true] for [-i] with no value, the value
    otherwise; [output] likewise for [-o]; [args] are the positional
    arguments.  [WriteFile path data] is the call
    [fs.writeFileSync(path, data)], with the path as it is passed. *)
Record Program : Type := {
  input : JsValue;
  output : JsValue;
  args : list string
}.

(** Nothing runs after [process.exit]. *)
Fixpoint until_exit (out : list Output) : list Output :=
  match out with
  | [] => []
  | Exit status :: _ => [Exit status]
  | o :: rest => o :: until_exit rest
  end.

Definition on_result (program : Program) (result : JsValue) : list Output :=
  if truthy (output program)
  then [WriteFile (output program) (toString result)]
  else [StdoutWrite (toString result); Exit 0].

Definition on_error (error : JsValue) : list Output :=
  [ConsoleLog ("Error parsing: " ++ toString error); Exit 1].

(** [parse(source, onSuccess, onError)] as the command line uses it: what the
    two callbacks of [main] print for an event of the loop.  A parsed
    document goes through [compileRamlObj], which reports to the same two
    callbacks. *)
Definition react (w : World) (program : Program) (e : Event) : list Output :=
  match e with
  | Invoked onSuccess ramlObj =>
      match compiled w ramlObj with
      | Fulfilled html => on_result program html
      | Rejected error => on_error error
      end
  | Invoked onError error => on_error error
  | Ran _ => []
  end.

Definition parse (w : World) (program : Program) (source : JsValue) : list Output :=
  flat_map (react w program) (log (run (sourceToRamlObj w source idle))).

Definition main (w : World) (program : Program) : list Output :=
  until_exit
    (if negb (truthy (input program)) then
       if negb (length (args program) =? 1)%nat then
         [ConsoleError "Error: You need to specify the RAML input file"; Help]
         ++ match help_exits w with Some status => [Exit status] | None => [] end
         ++ [Exit 1]
       else
         parse w program (from_option VString VUndefined (args program !! 0%nat))
     else parse w program (input program)).

(** The spec's count of the inputs an invocation supplies: one for an
    [-i]/[--input] flag, one for each positional argument. *)
Definition supplied (program : Program) : nat :=
  (match input program with VUndefined => 0 | _ => 1 end) + length (args program).

Definition usage_error (status : Z) : list Output :=
  [ConsoleError "Error: You need to specify the RAML input file"; Help; Exit status].

Definition html_world : World := {|
  existsSync := λ _, false;
  loadFile := λ _, Rejected (VError "no such file");
  load := λ text, if String.eqb text "" then Rejected (VError "empty document")
                  else Fulfilled (VObject 0);
  compiled := λ _, Fulfilled (VString "<html></html>");
  help_exits := None
|}.

(** ** Trees in the store

    The parser hands over a tree: every object is reached from the root along
    one path only.  [Shape] names the references of such a tree; the store
    has that shape when each object's [resources] lists exactly the roots of
    the sub-shapes, and it is a tree when no reference occurs twice. *)

Inductive Shape : Type :=
  | Node (ref : loc) (subs : list Shape).

Definition root (s : Shape) : loc :=
  match s with Node ref _ => ref end.

Definition subs (s : Shape) : list Shape :=
  match s with Node _ ss => ss end.

Fixpoint refs (s : Shape) : list loc :=
  match s with Node ref ss => ref :: flat_map refs ss end.

Fixpoint height (s : Shape) : nat :=
  match s with Node _ ss => S (foldr (λ k m, Nat.max (height k) m) 0 ss) end.

Inductive has_shape (h : Heap) : Shape → Prop :=
  | has_shape_node ref o ss :
      h !! ref = Some o →
      children o = root <$> ss →
      Forall (has_shape h) ss →
      has_shape h (Node ref ss).

Definition is_tree (h : Heap) (s : Shape) : Prop :=
  has_shape h s ∧ NoDup (refs s).

(** The objects met from [from] (itself left out) when following, at each
    step, the child at the given position of [resources]. *)
Fixpoint walk (h : Heap) (from : loc) (path : list nat) : option (list loc) :=
  match path with
  | [] => Some []
  | i :: rest =>
      o ← h !! from;
      child ← children o !! i;
      nodes ← walk h child rest;
      Some (child :: nodes)
  end.

(** The parameters an object declares itself, in iteration order. *)
Definition own (h : Heap) (ref : loc) : list ParamRef :=
  from_option (λ o, values (Obj.uriParameters o)) [] (h !! ref).

(** The [relativeUri] of an object as it enters a concatenation. *)
Definition segment (h : Heap) (ref : loc) : string :=
  from_option (λ o, default "undefined" (Obj.relativeUri o)) "undefined" (h !! ref).

(** The path made of the [relativeUri] of the objects in [nodes]. *)
Fixpoint joined (h : Heap) (nodes : list loc) : string :=
  match nodes with
  | [] => ""
  | n :: rest => segment h n +:+ joined h rest
  end.

(** An object without the three properties the annotator writes. *)
Definition parsed (o : Obj) : Obj :=
  Obj.mk (Obj.baseUri o) (Obj.version o) (Obj.relativeUri o)
         (Obj.uriParameters o) (Obj.resources o) None None None.

(** The annotator as [compileRamlObj] calls it: [traverse(ramlObj)]. *)
Definition traverse_document (fuel : nat) (ramlObj : loc) (h : Heap)
    : option (loc * Heap) :=
  traverse fuel ramlObj None None h.

(** What [traverse] leaves on the objects below the one it was called on:
    each child carries the path and the parameters handed down to it, and
    hands its own down to its children. *)
Inductive annotated (h : Heap) : string → list ParamRef → Shape → Prop :=
  | annotated_node (path : string) (inherited : list ParamRef) ref o ss :
      h !! ref = Some o →
      Obj.parentUrl o = Some path →
      Obj.uniqueId o
        = Some (replace_nonword (path ++ default "undefined" (Obj.relativeUri o))) →
      Obj.allUriParameters o = Some (inherited ++ values (Obj.uriParameters o))%list →
      Forall (annotated h (path ++ default "undefined" (Obj.relativeUri o))
                          (inherited ++ values (Obj.uriParameters o))%list) ss →
      annotated h path inherited (Node ref ss).

(** Two stores hold the same objects up to the annotator's three properties. *)
Definition same_parsed (h h' : Heap) : Prop :=
  ∀ ref, parsed <$> h' !! ref = parsed <$> h !! ref.

(** Two stores agree on every reference outside [touched]. *)
Definition same_outside (touched : list loc) (h h' : Heap) : Prop :=
  ∀ ref, ref ∉ touched → h' !! ref = h !! ref.

(** The postcondition of a call of [traverse] on the root of [s]. *)
Definition traversed (s : Shape) (parentUrl : option string)
    (allUriParameters : option (list ParamRef)) (h h' : Heap) : Prop :=
  same_parsed h h'
  ∧ same_outside (flat_map refs (subs s)) h h'
  ∧ Forall (annotated h' (default "" parentUrl) (default [] allUriParameters)) (subs s).

(** ** Sample documents

    A document with the resources [/users/{id}], below it
    [/posts/{postId}], and [/items], before and after annotation; and a
    document whose version holds a dollar pattern. *)

Definition example_store : Heap :=
  <[0 := Obj.mk (Some "http://api.example.com/{version}") (VString "v1") None None
           (Some [("0", 1); ("1", 3)]) None None None]>
  (<[1 := Obj.mk None VUndefined (Some "/users/{id}") (Some [("id", 10)])
            (Some [("0", 2)]) None None None]>
  (<[2 := Obj.mk None VUndefined (Some "/posts/{postId}") (Some [("postId", 11)])
            None None None None]>
  (<[3 := Obj.mk None VUndefined (Some "/items") (Some [("page", 12)])
            None None None None]> ∅))).

Definition example_shape : Shape :=
  Node 0 [Node 1 [Node 2 []]; Node 3 []].

Definition example_annotated : Heap :=
  <[0 := Obj.mk (Some "http://api.example.com/{version}") (VString "v1") None None
           (Some [("0", 1); ("1", 3)]) None None None]>
  (<[1 := Obj.mk None VUndefined (Some "/users/{id}") (Some [("id", 10)])
            (Some [("0", 2)]) (Some "") (Some "_users__id_") (Some [10])]>
  (<[2 := Obj.mk None VUndefined (Some "/posts/{postId}") (Some [("postId", 11)])
            None (Some "/users/{id}") (Some "_users__id__posts__postId_")
            (Some [10; 11])]>
  (<[3 := Obj.mk None VUndefined (Some "/items") (Some [("page", 12)])
            None (Some "") (Some "_items") (Some [12])]> ∅))).

Definition dollar_document : Heap :=
  {[ 0 := Obj.mk (Some "http://api.example.com/{version}") (VString "v$$1")
            None None None None None None ]}.

(** ** Compilation

    The two store steps of [compileRamlObj]: [parseBaseUri], then
    [traverse]. *)

Definition compile_store (fuel : nat) (ramlObj : loc) (h : Heap)
    : option (loc * Heap) :=
  '(ramlObj, h) ← parseBaseUri ramlObj h;
  traverse fuel ramlObj None None h.

(** The object [parseBaseUri] leaves in place of [o]. *)
Definition resolved (o : Obj) : Obj :=
  match Obj.baseUri o with
  | Some uri =>
      if truthy (VString uri)
      then Obj.set_baseUri (replace uri "{version}" (toString (Obj.version o))) o
      else o
  | None => o
  end.

(** A letter or a digit: a unit that [makeUniqueId] keeps and that is not
    the underscore. *)
Definition is_alnum (c : ascii) : bool := is_letter c || is_digit c.

(** [for (var k in options) { obj[k] = options[k]; }] on the properties of
    [obj], the options listed in iteration order. *)
Definition assign_all (options : list (string * JsValue))
    (props : gmap string JsValue) : gmap string JsValue :=
  foldl (λ p kv, <[kv.1 := kv.2]> p) props options.

(** The properties [compileRamlObj] leaves on [ramlObj] for the template
    engine, from the properties it has after the annotation: [config], then
    [helpers] unless the engine is handlebars, then every template option. *)
Definition compile_context (config helpers : JsValue) (templateEngine : string)
    (templateOptions : option (list (string * JsValue)))
    (props : gmap string JsValue) : gmap string JsValue :=
  let props := <["config" := config]> props in
  let props :=
    if negb (String.eqb templateEngine "handlebars")
    then <["helpers" := helpers]> props else props in
  match templateOptions with
  | Some options => assign_all options props
  | None => props
  end.

(** The sample document with stale annotations on [/posts/{postId}]. *)
Definition example_stale : Heap :=
  <[2 := Obj.mk None VUndefined (Some "/posts/{postId}") (Some [("postId", 11)])
           None (Some "/old") (Some "_old") (Some [99])]> example_store.

(** * Proofs *)

Local Open Scope list_scope.
Local Open Scope nat_scope.

(** ** Resource tree annotator *)

Lemma Shape_ind' (P : Shape → Prop) :
  (∀ ref ss, Forall P ss → P (Node ref ss)) → ∀ s, P s.
Proof.
  intros step. fix IH 1. intros [ref ss]. apply step.
  induction ss as [|k ss IHss]; constructor; [apply IH | exact IHss].
Qed.

Lemma annotate_resource_spec parentUrl allUriParameters r :
  annotate_resource parentUrl allUriParameters r
  = Some (Obj.mk (Obj.baseUri r) (Obj.version r) (Obj.relativeUri r)
            (Obj.uriParameters r) (Obj.resources r)
            (Some (default "" parentUrl))
            (Some (replace_nonword
                     (default "" parentUrl +:+ default "undefined" (Obj.relativeUri r))))
            (Some (default [] allUriParameters ++ values (Obj.uriParameters r)))).
Proof.
  assert (Hor : match parentUrl with
                | Some p => if truthy (VString p) then p else ""
                | None => ""
                end = default "" parentUrl).
  { destruct parentUrl as [[|c p]|]; reflexivity. }
  unfold annotate_resource. rewrite Hor. clear Hor.
  destruct r as [b v rel ups rs pu id al]. unfold makeUniqueId, plus, values. simpl.
  destruct allUriParameters as [inh|], ups as [ps|]; simpl;
    rewrite ?app_nil_r; reflexivity.
Qed.

Lemma elem_of_flat_map {A B} (f : A → list B) (l : list A) (y : B) :
  y ∈ flat_map f l ↔ ∃ x, x ∈ l ∧ y ∈ f x.
Proof.
  rewrite list_elem_of_In, in_flat_map.
  split; intros (x & Hx & Hy); exists x; by rewrite ?list_elem_of_In in *.
Qed.

Lemma children_parsed o o' : parsed o' = parsed o → children o' = children o.
Proof. unfold children. intros E. by injection E as _ _ _ _ -> . Qed.

Lemma same_parsed_refl h : same_parsed h h.
Proof. by intros ref. Qed.

Lemma same_parsed_trans h1 h2 h3 :
  same_parsed h1 h2 → same_parsed h2 h3 → same_parsed h1 h3.
Proof. intros H12 H23 ref. by rewrite H23. Qed.

Lemma same_parsed_insert (h : Heap) ref o o' :
  h !! ref = Some o → parsed o' = parsed o → same_parsed h (<[ref := o']> h).
Proof.
  intros Hl Hp ref'. destruct (decide (ref = ref')) as [<-|Hne].
  - rewrite lookup_insert_eq, Hl. simpl. by rewrite Hp.
  - by rewrite lookup_insert_ne.
Qed.

Lemma same_parsed_lookup (h h' : Heap) ref o :
  same_parsed h h' → h !! ref = Some o →
  ∃ o', h' !! ref = Some o' ∧ parsed o' = parsed o.
Proof.
  intros Hs Hl. specialize (Hs ref). rewrite Hl in Hs.
  destruct (h' !! ref) as [o'|]; simpl in Hs; [|discriminate].
  exists o'. split; [done | congruence].
Qed.

Lemma has_shape_same_parsed h h' s :
  same_parsed h h' → has_shape h s → has_shape h' s.
Proof.
  intros Hs. induction s as [ref ss IH] using Shape_ind'.
  inversion 1 as [ref' o ss' Hl Hc Hsub]; subst.
  destruct (same_parsed_lookup _ _ _ _ Hs Hl) as (o' & Hl' & Hp).
  econstructor; [exact Hl' | by rewrite (children_parsed _ _ Hp) |].
  rewrite Forall_forall in IH, Hsub |- *. intros k Hk. apply IH; auto.
Qed.

Lemma annotated_agree h h' s :
  ∀ path inherited,
    (∀ ref, ref ∈ refs s → h' !! ref = h !! ref) →
    annotated h path inherited s → annotated h' path inherited s.
Proof.
  induction s as [ref ss IH] using Shape_ind'.
  intros path inherited Hsame. inversion 1 as [? ? ? o ? Hl Hp Hu Ha Hsub]; subst.
  econstructor; eauto.
  - rewrite Hsame; [done | simpl; left].
  - rewrite Forall_forall in IH, Hsub |- *. intros k Hk.
    apply IH; auto. intros r Hr. apply Hsame. simpl. right.
    apply elem_of_flat_map. eauto.
Qed.

Lemma height_subs ref ss k : k ∈ ss → height k < height (Node ref ss).
Proof.
  simpl. induction ss as [|k' ss IH]; inversion 1; subst; simpl; [lia|].
  specialize (IH ltac:(assumption)). lia.
Qed.

Lemma for_in_traversed fuel parentUrl allUriParameters ss :
  Forall (λ k, ∀ pu inh h, has_shape h k → NoDup (refs k) → height k ≤ fuel →
            ∃ h', traverse fuel (root k) pu inh h = Some (root k, h')
                  ∧ traversed k pu inh h h') ss →
  ∀ h, Forall (has_shape h) ss → NoDup (flat_map refs ss) →
    Forall (λ k, height k ≤ fuel) ss →
    ∃ h', for_in (visit (traverse fuel) parentUrl allUriParameters) (root <$> ss) h
          = Some h'
      ∧ same_parsed h h' ∧ same_outside (flat_map refs ss) h h'
      ∧ Forall (annotated h' (default "" parentUrl) (default [] allUriParameters)) ss.
Proof.
  induction ss as [|k ss IHss]; intros Hrec h Hsh Hnd Hht.
  - exists h. split; [done|]. split; [apply same_parsed_refl|].
    split; [by intros ? ? | constructor].
  - apply Forall_cons in Hrec as [Hk Hrec]. apply Forall_cons in Hsh as [Hshk Hsh].
    apply Forall_cons in Hht as [Hhk Hht].
    simpl in Hnd. apply NoDup_app in Hnd as (Hndk & Hdisj & Hnd).
    destruct k as [c ks]. pose proof Hshk as Hshk'.
    inversion Hshk' as [? oc ? Hl Hc Hks]; subst.
    pose proof (annotate_resource_spec parentUrl allUriParameters oc) as Han.
    set (r' := Obj.mk _ _ _ _ _ _ _ _) in Han.
    assert (Hp : parsed r' = parsed oc) by reflexivity.
    pose proof (same_parsed_insert h c oc r' Hl Hp) as Hins.
    destruct (Hk (plus (Obj.parentUrl r') (Obj.relativeUri r')) (Obj.allUriParameters r')
                 (<[c := r']> h)) as (h2 & Htr & Hsp2 & Hout2 & Hann2);
      [by eapply has_shape_same_parsed | done | done |].
    destruct (IHss Hrec h2) as (h3 & Hfor & Hsp3 & Hout3 & Hann3); [|done|done|].
    { eapply Forall_impl; [exact Hsh|]. intros k'. simpl.
      apply has_shape_same_parsed. by eapply same_parsed_trans. }
    assert (Hv : visit (traverse fuel) parentUrl allUriParameters h c = Some h2).
    { unfold visit. rewrite Hl. cbn -[annotate_resource traverse].
      rewrite Han. cbn -[traverse]. cbn -[traverse] in Htr. by rewrite Htr. }
    exists h3. split; [rewrite fmap_cons; simpl; by rewrite Hv|].
    split; [by repeat (eapply same_parsed_trans; [eassumption|]) |].
    assert (Hc2 : h2 !! c = Some r').
    { rewrite Hout2; [apply lookup_insert_eq|]. simpl. by inversion Hndk. }
    split.
    + intros ref Hn. simpl in Hn.
      rewrite not_elem_of_cons, not_elem_of_app in Hn. destruct Hn as (Hne & Hnk & Hns).
      rewrite Hout3, Hout2 by done. by rewrite lookup_insert_ne.
    + constructor; [|exact Hann3].
      apply (annotated_agree h2); [intros ref Hr; apply Hout3; by apply Hdisj|].
      econstructor; [exact Hc2 | reflexivity | reflexivity | reflexivity |].
      exact Hann2.
Qed.

Lemma traverse_traversed s :
  ∀ fuel parentUrl allUriParameters h,
    has_shape h s → NoDup (refs s) → height s ≤ fuel →
    ∃ h', traverse fuel (root s) parentUrl allUriParameters h = Some (root s, h')
          ∧ traversed s parentUrl allUriParameters h h'.
Proof.
  induction s as [ref ss IH] using Shape_ind'.
  intros fuel parentUrl allUriParameters h Hsh Hnd Hht.
  destruct fuel as [|fuel]; [simpl in Hht; lia|].
  inversion Hsh as [? o ? Hl Hc Hsub]; subst.
  destruct (for_in_traversed fuel parentUrl allUriParameters ss) with (h := h)
    as (h' & Hfor & Hsp & Hout & Hann).
  - eapply Forall_impl; [exact IH|]. intros k Hk pu inh h0. apply Hk.
  - exact Hsub.
  - by inversion Hnd.
  - apply Forall_forall. intros k Hk. pose proof (height_subs ref ss k Hk). lia.
  - exists h'. simpl. rewrite Hl. simpl. rewrite Hc, Hfor. simpl.
    split; [done|]. by split.
Qed.

Lemma string_app_cons x (a b : string) : String x a +:+ b = String x (a +:+ b).
Proof. reflexivity. Qed.

Lemma string_app_assoc (a b c : string) : (a +:+ b) +:+ c = a +:+ (b +:+ c).
Proof. induction a as [|x a IH]; [done|]. by rewrite !string_app_cons, IH. Qed.

Lemma string_app_nil_r (a : string) : a +:+ "" = a.
Proof. induction a as [|x a IH]; [done|]. by rewrite string_app_cons, IH. Qed.

Lemma walk_annotated h path :
  ∀ s parentUrl inherited,
    has_shape h s → Forall (annotated h parentUrl inherited) (subs s) →
    ∀ ancestors node, walk h (root s) path = Some (ancestors ++ [node]) →
      ∃ o, h !! node = Some o
        ∧ Obj.parentUrl o = Some (parentUrl +:+ joined h ancestors)
        ∧ Obj.uniqueId o
          = Some (replace_nonword
                    ((parentUrl +:+ joined h ancestors)
                     +:+ default "undefined" (Obj.relativeUri o)))
        ∧ Obj.allUriParameters o
          = Some (inherited ++ flat_map (own h) ancestors ++ own h node).
Proof.
  induction path as [|i path IH]; intros s parentUrl inherited Hsh Hann ancestors node Hw.
  { simpl in Hw. destruct ancestors; simplify_eq. }
  destruct s as [r ss]. inversion Hsh as [? o_r ? Hl Hc Hsub]; subst.
  simpl in Hw, Hann. rewrite Hl in Hw. simpl in Hw. rewrite Hc in Hw.
  destruct ((root <$> ss) !! i) as [c|] eqn:Hi; simpl in Hw; [|done].
  apply list_lookup_fmap_Some in Hi as (k & -> & Hk).
  destruct (walk h (root k) path) as [nodes|] eqn:Hwk; simpl in Hw; [|done].
  injection Hw as Hw.
  pose proof (proj1 (Forall_forall _ _) Hann k (list_elem_of_lookup_2 _ _ _ Hk)) as Hak.
  pose proof (proj1 (Forall_forall _ _) Hsub k (list_elem_of_lookup_2 _ _ _ Hk)) as Hsk.
  inversion Hak as [? ? c oc ks Hlc Hp Hu Ha Hks]; subst.
  assert (Hseg : segment h c = default "undefined" (Obj.relativeUri oc)).
  { unfold segment. by rewrite Hlc. }
  assert (Hown : own h c = values (Obj.uriParameters oc)).
  { unfold own. by rewrite Hlc. }
  destruct ancestors as [|a ancestors]; simpl in Hw; injection Hw as <- Hw.
  - exists oc. simpl. rewrite string_app_nil_r, Hown. done.
  - destruct (IH (Node c ks) _ _ Hsk Hks ancestors node) as (o & Ho & Hpo & Huo & Hao).
    { by rewrite Hwk, Hw. }
    exists o. simpl. rewrite Hseg, Hown, <- string_app_assoc.
    split; [done|]. split; [done|]. split; [done|].
    by rewrite Hao, !app_assoc.
Qed.

Lemma own_same_parsed h h' : same_parsed h h' → ∀ ref, own h' ref = own h ref.
Proof.
  intros Hs ref. specialize (Hs ref). unfold own.
  destruct (h' !! ref) as [o'|], (h !! ref) as [o|]; simplify_eq/=; congruence.
Qed.

Lemma replace_nonword_length s :
  String.length (replace_nonword s) = String.length s.
Proof. induction s as [|c s IH]; simpl; [done | by rewrite IH]. Qed.

Lemma replace_nonword_get s : ∀ i c,
  String.get i s = Some c →
  String.get i (replace_nonword s) = Some (if is_word_char c then c else "_"%char).
Proof.
  induction s as [|x s IH]; intros [|i] c; simpl; try done.
  - by intros [= ->].
  - apply IH.
Qed.

Lemma replace_nonword_word s : all_chars is_word_char (replace_nonword s) = true.
Proof.
  induction s as [|c s IH]; simpl; [done|]. rewrite IH, andb_true_r.
  by destruct (is_word_char c) eqn:E.
Qed.

Lemma example_is_tree : is_tree example_store example_shape.
Proof.
  split.
  - repeat (econstructor; try reflexivity).
  - apply (bool_decide_unpack _). vm_compute. exact I.
Qed.

Example example_traverse :
  traverse_document 3 0 example_store = Some (0, example_annotated).
Proof. vm_compute. reflexivity. Qed.

(** C1.  After the annotator has run on a document whose resources form a
    tree, every resource reached from the document carries in
    [allUriParameters] the own parameters of its ancestors, from the
    top-level resource down to its parent, followed by its own, each group in
    iteration order; the own parameters are those of the parsed tree.  So the
    length is the sum of the own counts along the path, and every entry is
    declared on the path: a parameter declared only on a sibling or on a
    descendant never occurs. *)
Theorem traverse_allUriParameters (h : Heap) (s : Shape) (fuel : nat) :
  is_tree h s → height s ≤ fuel →
  ∃ h', traverse_document fuel (root s) h = Some (root s, h')
    ∧ (∀ ref, own h' ref = own h ref)
    ∧ ∀ path ancestors node,
        walk h' (root s) path = Some (ancestors ++ [node]) →
        ∃ o all, h' !! node = Some o
          ∧ Obj.allUriParameters o = Some all
          ∧ all = flat_map (own h') ancestors ++ own h' node
          ∧ length all
            = sum_list ((λ a, length (own h' a)) <$> ancestors) + length (own h' node)
          ∧ ∀ p, p ∈ all → ∃ a, a ∈ ancestors ++ [node] ∧ p ∈ own h' a.
Proof.
  intros [Hsh Hnd] Hfuel.
  destruct (traverse_traversed s fuel None None h Hsh Hnd Hfuel)
    as (h' & Htr & Hsp & Hout & Hann).
  exists h'. split; [exact Htr|]. split; [by apply own_same_parsed|].
  intros path ancestors node Hw.
  destruct (walk_annotated h' path s "" [] (has_shape_same_parsed _ _ _ Hsp Hsh)
              Hann ancestors node Hw) as (o & Ho & _ & _ & Hall).
  exists o, (flat_map (own h') ancestors ++ own h' node).
  split; [done|]. split; [done|]. split; [done|]. split.
  - rewrite length_app. f_equal. clear. induction ancestors as [|a l IH]; simpl; [done|].
    by rewrite length_app, IH.
  - intros p. rewrite elem_of_app, elem_of_flat_map. intros [(a & Ha & Hp)|Hp].
    + exists a. split; [|done]. apply elem_of_app. by left.
    + exists node. split; [|done]. apply elem_of_app. right. apply list_elem_of_here.
Qed.

Lemma traverse_allUriParameters_witness :
  is_tree example_store example_shape ∧ height example_shape ≤ 3
  ∧ ∃ h', traverse_document 3 0 example_store = Some (0, h')
      ∧ ∃ o, h' !! 2 = Some o ∧ Obj.allUriParameters o = Some [10; 11].
Proof.
  split; [exact example_is_tree|]. split; [vm_compute; lia|].
  destruct (traverse_allUriParameters example_store example_shape 3 example_is_tree)
    as (h' & Htr & _ & Hpaths); [vm_compute; lia|].
  exists h'. split; [exact Htr|].
  change (root example_shape) with 0 in Htr, Hpaths.
  rewrite example_traverse in Htr. injection Htr as <-.
  destruct (Hpaths [0; 0] [1] 2) as (o & all & Ho & Hall & Heq & _); [reflexivity|].
  exists o. split; [exact Ho|]. by rewrite Hall, Heq.
Defined.

(** C2.  After the annotator has run, the [uniqueId] of every resource is
    [parentUrl + relativeUri] of that resource, unit by unit, with each unit
    that is not a letter, a digit or an underscore replaced by an underscore;
    so it holds letters, digits and underscores only.  Letters are those of
    [\w]: [A-Z] and [a-z]. *)
Theorem traverse_uniqueId (h : Heap) (s : Shape) (fuel : nat) :
  is_tree h s → height s ≤ fuel →
  ∃ h', traverse_document fuel (root s) h = Some (root s, h')
    ∧ ∀ path ancestors node,
        walk h' (root s) path = Some (ancestors ++ [node]) →
        ∃ o parentUrl uid, h' !! node = Some o
          ∧ Obj.parentUrl o = Some parentUrl
          ∧ Obj.uniqueId o = Some uid
          ∧ let fullUrl := parentUrl +:+ default "undefined" (Obj.relativeUri o) in
            String.length uid = String.length fullUrl
            ∧ (∀ i c, String.get i fullUrl = Some c →
                 String.get i uid
                 = Some (if is_letter c || is_digit c || is_underscore c
                         then c else "_"%char))
            ∧ all_chars (λ c, is_letter c || is_digit c || is_underscore c) uid = true.
Proof.
  intros [Hsh Hnd] Hfuel.
  destruct (traverse_traversed s fuel None None h Hsh Hnd Hfuel)
    as (h' & Htr & Hsp & Hout & Hann).
  exists h'. split; [exact Htr|].
  intros path ancestors node Hw.
  destruct (walk_annotated h' path s "" [] (has_shape_same_parsed _ _ _ Hsp Hsh)
              Hann ancestors node Hw) as (o & Ho & Hp & Hu & _).
  exists o. eexists. eexists.
  split; [done|]. split; [exact Hp|]. split; [exact Hu|]. cbv zeta.
  split; [apply replace_nonword_length|].
  split; [apply replace_nonword_get | apply replace_nonword_word].
Qed.

Lemma traverse_uniqueId_witness :
  is_tree example_store example_shape ∧ height example_shape ≤ 3
  ∧ ∃ h', traverse_document 3 0 example_store = Some (0, h')
      ∧ ∃ o, h' !! 2 = Some o
          ∧ Obj.uniqueId o = Some "_users__id__posts__postId_".
Proof.
  split; [exact example_is_tree|]. split; [vm_compute; lia|].
  destruct (traverse_uniqueId example_store example_shape 3 example_is_tree)
    as (h' & Htr & Hpaths); [vm_compute; lia|].
  exists h'. split; [exact Htr|].
  change (root example_shape) with 0 in Htr, Hpaths.
  rewrite example_traverse in Htr. injection Htr as <-.
  destruct (Hpaths [0; 0] [1] 2) as (o & p & uid & Ho & _ & Hid & _); [reflexivity|].
  exists o. split; [exact Ho|].
  vm_compute in Ho. injection Ho as <-. reflexivity.
Defined.

(** [traverse] returns the reference it was given. *)
Lemma traverse_returns_argument fuel ramlObj parentUrl allUriParameters h r h' :
  traverse fuel ramlObj parentUrl allUriParameters h = Some (r, h') → r = ramlObj.
Proof.
  destruct fuel as [|fuel]; simpl; [done|].
  destruct (h !! ramlObj) as [o|]; simpl; [|done].
  destruct (for_in _ _ _); simpl; [|done]. by intros [= <- _].
Qed.

(** On an object without [resources] the call writes nothing. *)
Lemma traverse_no_resources fuel ramlObj parentUrl allUriParameters (h : Heap) o :
  h !! ramlObj = Some o → Obj.resources o = None →
  traverse (S fuel) ramlObj parentUrl allUriParameters h = Some (ramlObj, h).
Proof.
  intros Hl Hr. cbn [traverse]. rewrite Hl. cbn [mbind option_bind].
  unfold children. by rewrite Hr.
Qed.

(** C8.  The annotator works in place: it returns the reference of the
    document it was given; every object of the store is still there and
    differs at most in [parentUrl], [uniqueId] and [allUriParameters]; the
    document itself and what lies outside its tree are untouched; without a
    [resources] mapping on the document the store is left as it was; and
    every direct child of the document gets the empty string as
    [parentUrl]. *)
Theorem traverse_in_place (h : Heap) (s : Shape) (fuel : nat) :
  is_tree h s → height s ≤ fuel →
  ∃ h', traverse_document fuel (root s) h = Some (root s, h')
    ∧ same_parsed h h'
    ∧ same_outside (flat_map refs (subs s)) h h'
    ∧ (∀ o, h !! root s = Some o → Obj.resources o = None → h' = h)
    ∧ (∀ o child, h !! root s = Some o → child ∈ children o →
         ∃ oc, h' !! child = Some oc ∧ Obj.parentUrl oc = Some "").
Proof.
  intros [Hsh Hnd] Hfuel.
  destruct (traverse_traversed s fuel None None h Hsh Hnd Hfuel)
    as (h' & Htr & Hsp & Hout & Hann).
  exists h'. split; [exact Htr|]. split; [exact Hsp|]. split; [exact Hout|]. split.
  - intros o Hl Hr. destruct fuel as [|fuel]; [destruct s; simpl in Hfuel; lia|].
    unfold traverse_document in Htr.
    rewrite (traverse_no_resources _ _ _ _ _ _ Hl Hr) in Htr. by injection Htr.
  - intros o child Hl Hc. destruct s as [r ss].
    inversion Hsh as [? o' ? Hl' Hc' _]; subst. simpl in Hl, Hann.
    rewrite Hl in Hl'. injection Hl' as <-. rewrite Hc' in Hc.
    apply list_elem_of_fmap in Hc as (k & -> & Hk).
    pose proof (proj1 (Forall_forall _ _) Hann k Hk) as Hak.
    inversion Hak; subst. eauto.
Qed.

Lemma traverse_in_place_witness :
  is_tree example_store example_shape ∧ height example_shape ≤ 3
  ∧ ∃ h', traverse_document 3 0 example_store = Some (0, h')
      ∧ h' !! 0 = example_store !! 0
      ∧ ∃ oc, h' !! 3 = Some oc ∧ Obj.parentUrl oc = Some "".
Proof.
  split; [exact example_is_tree|]. split; [vm_compute; lia|].
  destruct (traverse_in_place example_store example_shape 3 example_is_tree)
    as (h' & Htr & _ & Hout & _ & Hkids); [vm_compute; lia|].
  exists h'. split; [exact Htr|]. split.
  - apply Hout. apply (bool_decide_unpack _). vm_compute. exact I.
  - eapply (Hkids _ 3); [reflexivity|].
    apply (bool_decide_unpack _). vm_compute. exact I.
Defined.

(** ** Base-URI resolver *)

Example replace_version :
  replace "http://api.example.com/{version}" "{version}" "v1"
  = "http://api.example.com/v1".
Proof. reflexivity. Qed.

Example replace_dollar_patterns :
  replace "a{version}b{version}" "{version}" "x$&$$y$`$'$1$"
  = "ax{version}$yab{version}$1$b{version}".
Proof. reflexivity. Qed.

Lemma search_unfold pat s :
  search pat s
  = if String.prefix pat s then Some (EmptyString, skip (String.length pat) s)
    else match s with
         | EmptyString => None
         | String c rest =>
             match search pat rest with
             | Some (before, after) => Some (String c before, after)
             | None => None
             end
         end.
Proof. by destruct s. Qed.

Lemma prefix_skip pat : ∀ s,
  String.prefix pat s = true → s = pat +:+ skip (String.length pat) s.
Proof.
  induction pat as [|a pat IH]; intros s; simpl.
  - intros _. by destruct s.
  - destruct s as [|b s]; simpl; [done|]. destruct (ascii_dec a b) as [->|]; [|done].
    intros H. rewrite string_app_cons. f_equal. by apply IH.
Qed.

Lemma prefix_app pat s : String.prefix pat (pat +:+ s) = true.
Proof.
  induction pat as [|a pat IH]; [by destruct s|]. rewrite string_app_cons. simpl.
  destruct (ascii_dec a a); [exact IH | congruence].
Qed.

(** [search] splits the text at an occurrence of the pattern, and no
    occurrence starts earlier. *)
Lemma search_Some pat : ∀ s before after,
  search pat s = Some (before, after) →
  s = before +:+ pat +:+ after
  ∧ ∀ before' after', s = before' +:+ pat +:+ after' →
      String.length before ≤ String.length before'.
Proof.
  induction s as [|c s IH]; intros before after; rewrite search_unfold;
    destruct (String.prefix pat _) eqn:Hp.
  - intros [= <- <-]. split; [by apply prefix_skip | simpl; lia].
  - done.
  - intros [= <- <-]. split; [by apply prefix_skip | simpl; lia].
  - destruct (search pat s) as [[b a]|] eqn:Hs; [|done]. intros [= <- <-].
    destruct (IH b a eq_refl) as [-> Hmin]. split; [done|].
    intros [|c' b'] a' E.
    + change ("" +:+ pat +:+ a') with (pat +:+ a') in E.
      rewrite E, prefix_app in Hp. done.
    + rewrite string_app_cons in E. injection E as _ E. simpl.
      specialize (Hmin b' a' E). lia.
Qed.

Lemma search_None pat : ∀ s,
  search pat s = None → ∀ before after, s ≠ before +:+ pat +:+ after.
Proof.
  induction s as [|c s IH]; rewrite search_unfold;
    destruct (String.prefix pat _) eqn:Hp; try done.
  - intros _ [|c' b] a E; [|done].
    change ("" +:+ pat +:+ a) with (pat +:+ a) in E. by rewrite E, prefix_app in Hp.
  - destruct (search pat s) as [[b a]|] eqn:Hs; [done|]. intros _ [|c' b'] a' E.
    + change ("" +:+ pat +:+ a') with (pat +:+ a') in E. by rewrite E, prefix_app in Hp.
    + rewrite string_app_cons in E. injection E as _ E. by eapply IH.
Qed.

(** A replacement text without a dollar sign stands for itself. *)
Lemma getSubstitution_literal matched before after repl :
  all_chars (λ c, negb (Ascii.eqb c "$")) repl = true →
  getSubstitution matched before after repl = repl.
Proof.
  induction repl as [|c repl IH]; simpl; [done|].
  intros [Hc Hr]%andb_true_iff. apply negb_true_iff in Hc. rewrite Hc.
  f_equal. by apply IH.
Qed.

Lemma string_app_length_inj (a b c d : string) :
  a +:+ b = c +:+ d → String.length a = String.length c → a = c ∧ b = d.
Proof.
  revert c. induction a as [|x a IH]; intros [|y c]; simpl; try done.
  rewrite !string_app_cons. intros [= -> E] [= L].
  destruct (IH c E L) as [-> ->]. done.
Qed.

(** With a replacement that holds no dollar sign, [replace] puts it in place
    of the first occurrence of the pattern. *)
Lemma replace_first_literal s pat repl before after :
  all_chars (λ c, negb (Ascii.eqb c "$")) repl = true →
  s = before +:+ pat +:+ after →
  (∀ before' after', s = before' +:+ pat +:+ after' →
     String.length before ≤ String.length before') →
  replace s pat repl = before +:+ repl +:+ after.
Proof.
  intros Hd Hs Hmin. unfold replace.
  destruct (search pat s) as [[b a]|] eqn:E.
  - destruct (search_Some _ _ _ _ E) as [Hs' Hmin'].
    rewrite getSubstitution_literal by done.
    assert (L : String.length b = String.length before).
    { specialize (Hmin b a Hs'). specialize (Hmin' before after Hs). lia. }
    rewrite Hs in Hs'. symmetry in Hs'.
    destruct (string_app_length_inj _ _ _ _ Hs' L) as [-> Hrest].
    apply String.app_inj in Hrest. by subst.
  - by destruct (search_None _ _ E before after).
Qed.

Lemma replace_no_occurrence s pat repl :
  (∀ before after, s ≠ before +:+ pat +:+ after) → replace s pat repl = s.
Proof.
  intros Hno. unfold replace. destruct (search pat s) as [[b a]|] eqn:E; [|done].
  destruct (search_Some _ _ _ _ E) as [Hs _]. by destruct (Hno b a).
Qed.

(** C5.  A version that holds a dollar pattern is not copied as it is:
    [replace] reads [$$] in its second argument as one dollar sign, so the
    document with version [v$$1] ends with the base URI [.../v$1]. *)
Theorem parseBaseUri_dollar_version :
  ∃ h' o, parseBaseUri 0 dollar_document = Some (0, h')
    ∧ h' !! 0 = Some o
    ∧ toString (Obj.version o) = "v$$1"
    ∧ Obj.baseUri o = Some "http://api.example.com/v$1".
Proof.
  do 2 eexists. split; [reflexivity|]. split; [reflexivity|]. split; reflexivity.
Qed.

Lemma parseBaseUri_unchanged (h : Heap) ramlObj o :
  h !! ramlObj = Some o →
  Obj.baseUri o = None ∨ Obj.baseUri o = Some "" →
  parseBaseUri ramlObj h = Some (ramlObj, h).
Proof. intros Hl [E|E]; unfold parseBaseUri; rewrite Hl; simpl; by rewrite E. Qed.

Lemma parseBaseUri_substitutes (h : Heap) ramlObj o before after :
  h !! ramlObj = Some o →
  Obj.baseUri o = Some (before +:+ "{version}" +:+ after) →
  (∀ before' after',
     before +:+ "{version}" +:+ after = before' +:+ "{version}" +:+ after' →
     String.length before ≤ String.length before') →
  all_chars (λ c, negb (Ascii.eqb c "$")) (toString (Obj.version o)) = true →
  parseBaseUri ramlObj h
  = Some (ramlObj,
          <[ramlObj := Obj.set_baseUri
                         (before +:+ toString (Obj.version o) +:+ after) o]> h).
Proof.
  intros Hl Hb Hmin Hd.
  assert (Ht : truthy (VString (before +:+ "{version}" +:+ after)) = true).
  { destruct before; reflexivity. }
  unfold parseBaseUri. rewrite Hl. cbn [mbind option_bind]. rewrite Hb, Ht.
  by rewrite (replace_first_literal _ _ _ before after Hd eq_refl Hmin).
Qed.

(** ** Lock-icon helper *)

Lemma indexOf_null_lower xs : (-1 ≤ indexOf_null xs)%Z.
Proof.
  induction xs as [|x xs IH]; simpl; [lia|].
  destruct (is_null x); [lia|]. destruct (indexOf_null xs =? -1)%Z; lia.
Qed.

Lemma splice_first_null xs :
  (if negb (indexOf_null xs =? -1)%Z then splice_one (indexOf_null xs) xs else xs)
  = remove_one_null xs.
Proof.
  induction xs as [|x xs IH]; simpl; [done|].
  destruct (is_null x); [done|].
  pose proof (indexOf_null_lower xs) as Hlo.
  destruct (indexOf_null xs =? -1)%Z eqn:E; simpl in *.
  - by rewrite <- IH.
  - apply Z.eqb_neq in E.
    destruct (indexOf_null xs + 1 =? -1)%Z eqn:E'; [lia|]. simpl.
    rewrite <- IH. unfold splice_one.
    replace (Z.to_nat (indexOf_null xs + 1)) with (S (Z.to_nat (indexOf_null xs))) by lia.
    done.
Qed.

Lemma lockIconHelper_unfold xs :
  lockIconHelper (Some xs)
  = (match remove_one_null xs with [] => Plain "" | _ => SafeString lock_icon end,
     Some (remove_one_null xs)).
Proof.
  unfold lockIconHelper. destruct xs as [|x xs]; [done|].
  cbn [length Nat.eqb negb]. rewrite splice_first_null.
  by destruct (remove_one_null (x :: xs)).
Qed.

Lemma remove_one_null_id xs :
  remove_one_null xs = xs ↔ Forall (λ v, is_null v = false) xs.
Proof.
  induction xs as [|x xs IH]; simpl; [by split; [constructor|]|].
  destruct (is_null x) eqn:E.
  - split.
    + intros H. apply (f_equal length) in H. simpl in H. lia.
    + inversion 1; congruence.
  - split.
    + intros [= H]. constructor; [done | by apply IH].
    + inversion 1; subst. f_equal. by apply IH.
Qed.

Lemma remove_one_null_length xs :
  Exists (λ v, is_null v = true) xs → S (length (remove_one_null xs)) = length xs.
Proof.
  induction xs as [|x xs IH]; simpl; [by inversion 1|].
  destruct (is_null x) eqn:E; [done|].
  inversion 1; subst; [congruence|]. simpl. f_equal. by apply IH.
Qed.

Lemma remove_one_null_rest xs :
  length (List.filter is_null xs) ≤ 1 →
  Forall (λ v, is_null v = false) (remove_one_null xs).
Proof.
  induction xs as [|x xs IH]; simpl; [constructor|].
  destruct (is_null x) eqn:E; simpl; intros H.
  - apply Forall_forall. intros v Hv. destruct (is_null v) eqn:Ev; [|done].
    assert (v ∈ List.filter is_null xs) as Hin.
    { apply list_elem_of_In, filter_In. split; [by apply list_elem_of_In | done]. }
    destruct (List.filter is_null xs); [by inversion Hin | simpl in H; lia].
  - constructor; [done | by apply IH].
Qed.

(** C6, as the spec states it, fails on a list with two [null] entries: the
    helper removes one, finds the list not empty and returns the marker,
    though no scheme other than [null] remains. *)
Lemma lockIconHelper_two_nulls :
  (lockIconHelper (Some [VNull; VNull])).1 = SafeString lock_icon
  ∧ scheme_remains (Some [VNull; VNull]) = false.
Proof. split; reflexivity. Qed.

(** C6, amended.  The helper returns the marker, a [SafeString] that is not
    empty, exactly when an entry of any kind remains once the first [null]
    entry is removed, and the empty string otherwise.  For a list with at
    most one [null] entry that is exactly when a scheme other than [null]
    remains.  [[null]] gives the empty string, [[null, "oauth2"]] the marker,
    [[]] and a missing argument the empty string. *)
Theorem lockIconHelper_marker (securedBy : option (list JsValue)) :
  let shown := (lockIconHelper securedBy).1 in
  (shown = SafeString lock_icon ∨ shown = Plain "")
  ∧ lock_icon ≠ ""
  ∧ (shown = SafeString lock_icon ↔ remove_one_null (default [] securedBy) ≠ [])
  ∧ (length (List.filter is_null (default [] securedBy)) ≤ 1 →
     (shown = SafeString lock_icon ↔ scheme_remains securedBy = true))
  ∧ (lockIconHelper (Some [VNull])).1 = Plain ""
  ∧ (lockIconHelper (Some [VNull; VString "oauth2"])).1 = SafeString lock_icon
  ∧ (lockIconHelper (Some [])).1 = Plain ""
  ∧ (lockIconHelper None).1 = Plain "".
Proof.
  cbv zeta.
  assert (Hshown : (lockIconHelper securedBy).1
                   = match remove_one_null (default [] securedBy) with
                     | [] => Plain ""
                     | _ => SafeString lock_icon
                     end).
  { destruct securedBy as [xs|]; [by rewrite lockIconHelper_unfold | done]. }
  rewrite Hshown. unfold scheme_remains.
  split; [destruct (remove_one_null _); auto|]. split; [done|].
  split; [destruct (remove_one_null _); split; done|].
  split; [|repeat split].
  intros Hone. apply remove_one_null_rest in Hone.
  destruct (remove_one_null _) as [|v rest]; [split; done|].
  inversion Hone as [|? ? Hv _]; subst. simpl. rewrite Hv. done.
Qed.

Lemma lockIconHelper_marker_witness :
  length (List.filter is_null [VNull; VString "oauth2"]) ≤ 1
  ∧ ((lockIconHelper (Some [VNull; VString "oauth2"])).1 = SafeString lock_icon
     ↔ scheme_remains (Some [VNull; VString "oauth2"]) = true).
Proof.
  split; [vm_compute; lia|].
  apply (lockIconHelper_marker (Some [VNull; VString "oauth2"])). vm_compute. lia.
Defined.

(** C3, as the spec states it, fails: the helper takes the [null] entry out
    of the list it was given. *)
Lemma lockIconHelper_edits_list :
  (lockIconHelper (Some [VNull; VString "oauth2"])).2 = Some [VString "oauth2"]
  ∧ length [VString "oauth2"] ≠ length [VNull; VString "oauth2"].
Proof. split; [reflexivity | simpl; lia]. Qed.

(** C3, amended.  The Markdown and the highlight helper compute their result
    from the text alone: nothing for a missing or empty text, the library's
    markup as a [SafeString] otherwise.  The lock-icon helper edits the list
    it is given: it takes out the first [null] entry.  The list is left as it
    was exactly when it holds no [null] entry, and is one entry shorter
    otherwise. *)
Theorem helpers_effect (e : Engines) (text : option string)
    (securedBy : option (list JsValue)) :
  markDownHelper e text
  = match text with
    | Some t => if String.eqb t "" then Plain "" else SafeString (marked e t)
    | None => Plain ""
    end
  ∧ highlightHelper e text
    = match text with
      | Some t => if String.eqb t "" then Plain "" else SafeString (highlightAuto e t)
      | None => Plain ""
      end
  ∧ (lockIconHelper securedBy).2 = remove_one_null <$> securedBy
  ∧ ((lockIconHelper securedBy).2 = securedBy
     ↔ Forall (λ v, is_null v = false) (default [] securedBy))
  ∧ (Exists (λ v, is_null v = true) (default [] securedBy) →
     S (length (default [] (lockIconHelper securedBy).2))
     = length (default [] securedBy)).
Proof.
  split; [by destruct text as [[|c t]|]|]. split; [by destruct text as [[|c t]|]|].
  destruct securedBy as [xs|]; [rewrite lockIconHelper_unfold|]; simpl.
  - split; [done|]. split.
    + rewrite <- remove_one_null_id. split; congruence.
    + apply remove_one_null_length.
  - split; [done|]. split; [by split; [constructor|] | by inversion 1].
Qed.

Lemma helpers_effect_witness :
  Exists (λ v, is_null v = true) [VString "basic"; VNull]
  ∧ S (length (default [] (lockIconHelper (Some [VString "basic"; VNull])).2))
    = length [VString "basic"; VNull].
Proof.
  split; [apply Exists_cons_tl, Exists_cons_hd; reflexivity|].
  apply (helpers_effect {| marked := id; highlightAuto := id |} None
           (Some [VString "basic"; VNull])).
  apply Exists_cons_tl, Exists_cons_hd. reflexivity.
Defined.

(** ** Source loader *)

Lemma ticks_log : ∀ q st,
  queue st = q →
  log (ticks (length q) st) = log st ++ (fired <$> q)
  ∧ queue (ticks (length q) st) = [].
Proof.
  induction q as [|[cb arg] q IH]; intros st Hq; simpl.
  - by rewrite app_nil_r.
  - destruct (IH (tick st)) as [Hlog Hqueue].
    { unfold tick. by rewrite Hq. }
    rewrite Hlog, Hqueue. split; [|done].
    unfold tick. rewrite Hq. simpl. by rewrite <- app_assoc.
Qed.

Lemma run_log st : log (run st) = log st ++ (fired <$> queue st).
Proof. unfold run. by apply ticks_log. Qed.

(** C7.  Handed a parsed object, the loader runs nothing before it returns:
    it leaves one call of the success callback, with the reference it was
    given, behind the calls that were already waiting.  A statement that
    follows the call of the loader therefore runs before the callback. *)
Theorem sourceToRamlObj_object_next_tick (w : World) (ref : loc) (st : Loop)
    (next : string) :
  log (sourceToRamlObj w (VObject ref) st) = log st
  ∧ queue (sourceToRamlObj w (VObject ref) st)
    = queue st ++ [(onSuccess, VObject ref)]
  ∧ log (run (statement next (sourceToRamlObj w (VObject ref) st)))
    = log st ++ [Ran next] ++ (fired <$> queue st)
      ++ [Invoked onSuccess (VObject ref)]
  ∧ log (run (statement next (sourceToRamlObj w (VObject ref) idle)))
    = [Ran next; Invoked onSuccess (VObject ref)].
Proof.
  split; [done|]. split; [done|]. rewrite !run_log. simpl.
  split; [|done]. by rewrite fmap_app, <- !app_assoc.
Qed.

(** C10.  [null] is not refused: [typeof null] is ['object'], so the loader
    takes the branch of a parsed object and leaves one call of the success
    callback with [null] for a later tick; the error callback is not called. *)
Theorem sourceToRamlObj_null (w : World) (st : Loop) (next : string) :
  typeof VNull = "object"
  ∧ log (sourceToRamlObj w VNull st) = log st
  ∧ queue (sourceToRamlObj w VNull st) = queue st ++ [(onSuccess, VNull)]
  ∧ log (run (statement next (sourceToRamlObj w VNull idle)))
    = [Ran next; Invoked onSuccess VNull].
Proof. repeat split. Qed.

(** C4.  A source that is neither string, [Buffer] nor object (here [true],
    what [-i] without a value leaves) gets the error callback before the
    loader returns: the callback has run when the next statement of the
    caller runs, and nothing is left for a later tick. *)
Theorem sourceToRamlObj_argument_error_now (w : World) (next : string) :
  log (sourceToRamlObj w (VBoolean true) idle) = [Invoked onError argument_error]
  ∧ queue (sourceToRamlObj w (VBoolean true) idle) = []
  ∧ log (run (statement next (sourceToRamlObj w (VBoolean true) idle)))
    = [Invoked onError argument_error; Ran next].
Proof. repeat split. Qed.

Local Ltac loader_case :=
  split;
  [ simpl; by eauto
  | simpl; split;
    [ first [ discriminate | intros _; first [ by left | by right ] ]
    | first [ done | intros [?|?]; discriminate ] ] ].

(** Whatever the source, one callback is called, once; it is called before
    the loader returns exactly when the source is neither string, [Buffer]
    nor object. *)
Lemma sourceToRamlObj_once (w : World) (source : JsValue) :
  (∃ cb arg, log (run (sourceToRamlObj w source idle)) = [Invoked cb arg])
  ∧ (log (sourceToRamlObj w source idle) = []
     ↔ typeof source = "string" ∨ typeof source = "object").
Proof.
  rewrite run_log. unfold sourceToRamlObj.
  destruct source as [| |b|n|s|c|r|m]; cbn [typeof instanceof_Buffer toString String.eqb Ascii.eqb Bool.eqb];
    try loader_case.
  - destruct (existsSync w s); [destruct (loadFile w s) | destruct (load w _)];
      loader_case.
  - destruct (load w _); loader_case.
Qed.

(** ** Command line *)

(** C9, as the spec states it, fails when the flag and a positional argument
    are both given: two inputs are supplied, and the process renders the
    flag's input without a word about usage. *)
Lemma main_flag_and_positional :
  supplied {| input := VString "api.raml"; output := VUndefined; args := ["other.raml"] |} = 2
  ∧ main html_world
      {| input := VString "api.raml"; output := VUndefined; args := ["other.raml"] |}
    = [StdoutWrite "<html></html>"; Exit 0].
Proof. split; reflexivity. Qed.

Lemma parse_loader_error w program source error :
  log (run (sourceToRamlObj w source idle)) = [Invoked onError error] →
  parse w program source = on_error error.
Proof. unfold parse. intros ->. simpl. by rewrite ?app_nil_r. Qed.

Lemma parse_compile_error w program source ramlObj error :
  log (run (sourceToRamlObj w source idle)) = [Invoked onSuccess ramlObj] →
  compiled w ramlObj = Rejected error →
  parse w program source = on_error error.
Proof. unfold parse. intros -> E. simpl. by rewrite E, ?app_nil_r. Qed.

(** C9, amended.  When [program.input] is falsy, that is without the
    [-i]/[--input] flag or with an empty value for it, exactly one positional
    argument must be given: otherwise the process prints the error line and
    the usage and ends there, and with one it takes that argument as its
    input.  When [program.input] is truthy the process takes it as its input,
    whatever the positional arguments: a value that is not empty is loaded,
    and [true], which is what the flag leaves when it is given without a
    value, ends with the loader's argument error.  When the input fails to
    load or to compile, the process prints [Error parsing: ] with the error
    and exits with status 1. *)
Theorem main_input (w : World) (program : Program) :
  (truthy (input program) = false → length (args program) ≠ 1 →
     ∃ status, main w program = usage_error status)
  ∧ (truthy (input program) = false → ∀ file, args program = [file] →
       main w program = until_exit (parse w program (VString file)))
  ∧ (truthy (input program) = true →
       main w program = until_exit (parse w program (input program)))
  ∧ (∀ source error,
       log (run (sourceToRamlObj w source idle)) = [Invoked onError error]
       ∨ (∃ ramlObj,
            log (run (sourceToRamlObj w source idle)) = [Invoked onSuccess ramlObj]
            ∧ compiled w ramlObj = Rejected error) →
       until_exit (parse w program source)
       = [ConsoleLog ("Error parsing: " +:+ toString error); Exit 1])
  ∧ (input program = VUndefined ∨ input program = VString "" →
       truthy (input program) = false)
  ∧ (∀ value, value ≠ "" → input program = VString value →
       main w program = until_exit (parse w program (VString value)))
  ∧ (input program = VBoolean true →
       main w program
       = [ConsoleLog ("Error parsing: " +:+ toString argument_error); Exit 1]).
Proof.
  unfold main. repeat split.
  - intros -> Hn. apply Nat.eqb_neq in Hn. rewrite Hn. simpl.
    destruct (help_exits w) as [status|]; simpl; eauto.
  - by intros -> file ->.
  - by intros ->.
  - intros source error [H|(ramlObj & H & E)].
    + by rewrite (parse_loader_error _ _ _ _ H).
    + by rewrite (parse_compile_error _ _ _ _ _ H E).
  - by intros [->| ->].
  - intros value Hne ->. by destruct value.
  - by intros ->.
Qed.

Lemma main_input_witness :
  truthy VUndefined = false ∧ length (["a.raml"; "b.raml"] : list string) ≠ 1
  ∧ ∃ status,
      main html_world {| input := VUndefined; output := VUndefined; args := ["a.raml"; "b.raml"] |}
      = usage_error status.
Proof.
  split; [reflexivity|]. split; [simpl; lia|].
  apply (main_input html_world
           {| input := VUndefined; output := VUndefined; args := ["a.raml"; "b.raml"] |});
    [reflexivity | simpl; lia].
Defined.

(** The status after the usage text is the one [help()] ends the process
    with, and 1 when [help()] returns. *)
Lemma main_usage_status w program :
  truthy (input program) = false → length (args program) ≠ 1 →
  main w program = usage_error (default 1%Z (help_exits w)).
Proof.
  unfold main. intros -> Hn. apply Nat.eqb_neq in Hn. rewrite Hn. simpl.
  by destruct (help_exits w).
Qed.

(** ** Further properties *)

(** The base URI is left alone when it is missing or empty.  When it holds
    [{version}] and the version's text holds no dollar sign, the text takes
    the place of the first occurrence, in the same object. *)
Theorem parseBaseUri_resolves (h : Heap) (ramlObj : loc) (o : Obj) :
  h !! ramlObj = Some o →
  (Obj.baseUri o = None ∨ Obj.baseUri o = Some "" →
     parseBaseUri ramlObj h = Some (ramlObj, h))
  ∧ (∀ before after,
       Obj.baseUri o = Some (before +:+ "{version}" +:+ after) →
       (∀ before' after',
          before +:+ "{version}" +:+ after = before' +:+ "{version}" +:+ after' →
          String.length before ≤ String.length before') →
       all_chars (λ c, negb (Ascii.eqb c "$")) (toString (Obj.version o)) = true →
       parseBaseUri ramlObj h
       = Some (ramlObj,
               <[ramlObj := Obj.set_baseUri
                              (before +:+ toString (Obj.version o) +:+ after) o]> h)).
Proof.
  intros Hl. split.
  - by apply parseBaseUri_unchanged.
  - intros before after. by apply parseBaseUri_substitutes.
Qed.

Lemma parseBaseUri_resolves_witness :
  ∃ o, example_store !! 0 = Some o
    ∧ parseBaseUri 0 example_store
      = Some (0, <[0 := Obj.set_baseUri "http://api.example.com/v1" o]> example_store).
Proof.
  eexists. split; [reflexivity|].
  apply (proj2 (parseBaseUri_resolves example_store 0 _ eq_refl)
           "http://api.example.com/" "").
  - reflexivity.
  - apply (search_Some "{version}" "http://api.example.com/{version}"
             "http://api.example.com/" ""). reflexivity.
  - reflexivity.
Defined.

(** After the annotator has run, the [parentUrl] of every resource is the
    concatenation of the [relativeUri] of its ancestors, from the top-level
    resource down to its parent. *)
Theorem traverse_parentUrl (h : Heap) (s : Shape) (fuel : nat) :
  is_tree h s → height s ≤ fuel →
  ∃ h', traverse_document fuel (root s) h = Some (root s, h')
    ∧ ∀ path ancestors node,
        walk h' (root s) path = Some (ancestors ++ [node]) →
        ∃ o, h' !! node = Some o ∧ Obj.parentUrl o = Some (joined h' ancestors).
Proof.
  intros [Hsh Hnd] Hfuel.
  destruct (traverse_traversed s fuel None None h Hsh Hnd Hfuel)
    as (h' & Htr & Hsp & Hout & Hann).
  exists h'. split; [exact Htr|].
  intros path ancestors node Hw.
  destruct (walk_annotated h' path s "" [] (has_shape_same_parsed _ _ _ Hsp Hsh)
              Hann ancestors node Hw) as (o & Ho & Hp & _).
  by exists o.
Qed.

Lemma traverse_parentUrl_witness :
  is_tree example_store example_shape ∧ height example_shape ≤ 3
  ∧ ∃ h', traverse_document 3 0 example_store = Some (0, h')
      ∧ ∃ o, h' !! 2 = Some o ∧ Obj.parentUrl o = Some "/users/{id}".
Proof.
  split; [exact example_is_tree|]. split; [vm_compute; lia|].
  destruct (traverse_parentUrl example_store example_shape 3 example_is_tree)
    as (h' & Htr & Hpaths); [vm_compute; lia|].
  exists h'. split; [exact Htr|].
  change (root example_shape) with 0 in Htr, Hpaths.
  rewrite example_traverse in Htr. injection Htr as <-.
  destruct (Hpaths [0; 0] [1] 2) as (o & Ho & Hp); [reflexivity|].
  exists o. split; [exact Ho|]. rewrite Hp. reflexivity.
Defined.

(** ** Re-annotation and composition *)

Lemma has_shape_same_children h h' s :
  (∀ ref, children <$> h' !! ref = children <$> h !! ref) →
  has_shape h s → has_shape h' s.
Proof.
  intros Hs. induction s as [ref ss IH] using Shape_ind'.
  inversion 1 as [ref' o ss' Hl Hc Hsub]; subst.
  specialize (Hs ref) as Hr. rewrite Hl in Hr.
  destruct (h' !! ref) as [o'|] eqn:Hl'; simpl in Hr; [|done].
  injection Hr as Hr.
  econstructor; [exact Hl' | by rewrite Hr |].
  rewrite Forall_forall in IH, Hsub |- *. intros k Hk. apply IH; auto.
Qed.

Lemma annotated_unique s :
  ∀ path inherited h1 h2,
    annotated h1 path inherited s → annotated h2 path inherited s →
    (∀ ref, ref ∈ refs s → parsed <$> h1 !! ref = parsed <$> h2 !! ref) →
    ∀ ref, ref ∈ refs s → h1 !! ref = h2 !! ref.
Proof.
  induction s as [c ks IH] using Shape_ind'.
  intros path inherited h1 h2 H1 H2 Hp.
  inversion H1 as [? ? ? o1 ? Hl1 Hp1 Hu1 Ha1 Hk1]; subst.
  inversion H2 as [? ? ? o2 ? Hl2 Hp2 Hu2 Ha2 Hk2]; subst.
  assert (E : parsed o1 = parsed o2).
  { specialize (Hp c (list_elem_of_here _ _)). rewrite Hl1, Hl2 in Hp.
    simpl in Hp. congruence. }
  assert (Erel : Obj.relativeUri o1 = Obj.relativeUri o2) by (by injection E).
  assert (Eown : Obj.uriParameters o1 = Obj.uriParameters o2) by (by injection E).
  rewrite Erel, Eown in *.
  intros ref [->|Hin]%elem_of_cons.
  - rewrite Hl1, Hl2. f_equal.
    destruct o1, o2; simpl in *. injection E as -> -> _ _ ->. congruence.
  - apply elem_of_flat_map in Hin as (k & Hk & Hr).
    rewrite Forall_forall in IH, Hk1, Hk2.
    eapply (IH k Hk); [by apply Hk1 | by apply Hk2 | | done].
    intros r Hr'. apply Hp. simpl. right. apply elem_of_flat_map. eauto.
Qed.

Lemma parseBaseUri_resolved (h : Heap) ramlObj o :
  h !! ramlObj = Some o →
  parseBaseUri ramlObj h = Some (ramlObj, <[ramlObj := resolved o]> h).
Proof.
  intros Hl. unfold parseBaseUri, resolved. rewrite Hl. cbn [mbind option_bind].
  destruct (Obj.baseUri o) as [uri|]; [destruct (truthy (VString uri))|];
    by rewrite ?(insert_id h ramlObj o Hl).
Qed.

Lemma children_resolved o : children (resolved o) = children o.
Proof.
  unfold resolved. destruct (Obj.baseUri o) as [uri|]; [|done].
  by destruct (truthy (VString uri)).
Qed.

(** What [traverse] writes below the object it is called on depends on the
    parsed properties of those objects only. *)
Lemma traverse_agree s fuel parentUrl allUriParameters h1 h2 h1' h2' :
  has_shape h1 s → has_shape h2 s → NoDup (refs s) → height s ≤ fuel →
  (∀ ref, ref ∈ flat_map refs (subs s) →
     parsed <$> h1 !! ref = parsed <$> h2 !! ref) →
  traverse fuel (root s) parentUrl allUriParameters h1 = Some (root s, h1') →
  traverse fuel (root s) parentUrl allUriParameters h2 = Some (root s, h2') →
  ∀ ref, ref ∈ flat_map refs (subs s) → h1' !! ref = h2' !! ref.
Proof.
  intros Hs1 Hs2 Hnd Hfuel Hp Ht1 Ht2 ref Hin.
  destruct (traverse_traversed s fuel parentUrl allUriParameters h1 Hs1 Hnd Hfuel)
    as (h1'' & Ht1' & Hsp1 & _ & Hann1).
  destruct (traverse_traversed s fuel parentUrl allUriParameters h2 Hs2 Hnd Hfuel)
    as (h2'' & Ht2' & Hsp2 & _ & Hann2).
  rewrite Ht1 in Ht1'. rewrite Ht2 in Ht2'. simplify_eq.
  apply elem_of_flat_map in Hin as (k & Hk & Hr).
  rewrite Forall_forall in Hann1, Hann2.
  eapply (annotated_unique k); [by apply Hann1 | by apply Hann2 | | done].
  intros r Hr'. rewrite Hsp1, Hsp2. apply Hp. apply elem_of_flat_map. eauto.
Qed.

Lemma root_not_below s : NoDup (refs s) → root s ∉ flat_map refs (subs s).
Proof. destruct s as [r ss]. simpl. by inversion 1. Qed.

(** Annotating an annotated tree again changes nothing. *)
Theorem traverse_idempotent (h : Heap) (s : Shape) (fuel : nat) :
  is_tree h s → height s ≤ fuel →
  ∃ h', traverse_document fuel (root s) h = Some (root s, h')
    ∧ traverse_document fuel (root s) h' = Some (root s, h').
Proof.
  intros [Hsh Hnd] Hfuel. unfold traverse_document.
  destruct (traverse_traversed s fuel None None h Hsh Hnd Hfuel)
    as (h1 & Ht1 & Hsp1 & Hout1 & Hann1).
  pose proof (has_shape_same_parsed _ _ _ Hsp1 Hsh) as Hsh1.
  destruct (traverse_traversed s fuel None None h1 Hsh1 Hnd Hfuel)
    as (h2 & Ht2 & Hsp2 & Hout2 & Hann2).
  exists h1. split; [done|]. rewrite Ht2. do 2 f_equal.
  apply map_eq. intros ref.
  destruct (decide (ref ∈ flat_map refs (subs s))) as [Hin|Hout]; [|by apply Hout2].
  apply elem_of_flat_map in Hin as (k & Hk & Hr).
  rewrite Forall_forall in Hann1, Hann2.
  eapply (annotated_unique k); [by apply Hann2 | by apply Hann1 | | done].
  intros r _. apply Hsp2.
Qed.

Lemma traverse_idempotent_witness :
  is_tree example_store example_shape ∧ height example_shape ≤ 3
  ∧ ∃ h', traverse_document 3 0 example_store = Some (0, h')
      ∧ traverse_document 3 0 h' = Some (0, h').
Proof.
  split; [exact example_is_tree|]. split; [vm_compute; lia|].
  apply (traverse_idempotent example_store example_shape 3 example_is_tree).
  vm_compute; lia.
Defined.

(** Whatever [parentUrl], [uniqueId] and [allUriParameters] the objects held
    before, the annotator overwrites them: two stores that hold the same
    parsed tree end with the same resources. *)
Theorem traverse_overwrites (h1 h2 : Heap) (s : Shape) (fuel : nat) :
  is_tree h1 s → same_parsed h1 h2 → height s ≤ fuel →
  ∃ h1' h2', traverse_document fuel (root s) h1 = Some (root s, h1')
    ∧ traverse_document fuel (root s) h2 = Some (root s, h2')
    ∧ ∀ ref, ref ∈ flat_map refs (subs s) → h1' !! ref = h2' !! ref.
Proof.
  intros [Hsh Hnd] Hsp Hfuel. unfold traverse_document.
  pose proof (has_shape_same_parsed _ _ _ Hsp Hsh) as Hsh2.
  destruct (traverse_traversed s fuel None None h1 Hsh Hnd Hfuel) as (h1' & Ht1 & _).
  destruct (traverse_traversed s fuel None None h2 Hsh2 Hnd Hfuel) as (h2' & Ht2 & _).
  exists h1', h2'. split; [done|]. split; [done|].
  exact (traverse_agree s fuel None None h1 h2 h1' h2' Hsh Hsh2 Hnd Hfuel
           (λ r _, eq_sym (Hsp r)) Ht1 Ht2).
Qed.

Lemma traverse_overwrites_witness :
  is_tree example_store example_shape ∧ same_parsed example_store example_stale
  ∧ height example_shape ≤ 3
  ∧ ∃ h1' h2', traverse_document 3 0 example_store = Some (0, h1')
      ∧ traverse_document 3 0 example_stale = Some (0, h2')
      ∧ h1' !! 2 = h2' !! 2.
Proof.
  assert (Hsp : same_parsed example_store example_stale).
  { intros ref. unfold example_stale.
    destruct (decide (2 = ref)) as [<-|Hne]; [reflexivity|].
    by rewrite lookup_insert_ne. }
  split; [exact example_is_tree|]. split; [exact Hsp|]. split; [vm_compute; lia|].
  destruct (traverse_overwrites example_store example_stale example_shape 3
              example_is_tree Hsp) as (h1' & h2' & Ht1 & Ht2 & Hagree);
    [vm_compute; lia|].
  exists h1', h2'. split; [exact Ht1|]. split; [exact Ht2|].
  apply Hagree. apply (bool_decide_unpack _). vm_compute. exact I.
Defined.

(** The two store steps of [compileRamlObj] do not interfere: resolving the
    base URI before or after the annotation gives the same store, in which
    every object but the document is as the annotator alone leaves it. *)
Theorem compile_store_commutes (h : Heap) (s : Shape) (fuel : nat) :
  is_tree h s → height s ≤ fuel →
  ∃ h' ht, compile_store fuel (root s) h = Some (root s, h')
    ∧ traverse_document fuel (root s) h = Some (root s, ht)
    ∧ parseBaseUri (root s) ht = Some (root s, h')
    ∧ (∀ ref, ref ≠ root s → h' !! ref = ht !! ref)
    ∧ h' !! root s = resolved <$> h !! root s.
Proof.
  intros [Hsh Hnd] Hfuel. unfold compile_store, traverse_document.
  assert (∃ o, h !! root s = Some o) as [o Hl] by (inversion Hsh; simpl; eauto).
  rewrite (parseBaseUri_resolved _ _ _ Hl). cbn [mbind option_bind].
  set (hb := <[root s := resolved o]> h).
  assert (Hshb : has_shape hb s).
  { apply (has_shape_same_children h); [|done]. intros ref. unfold hb.
    destruct (decide (root s = ref)) as [<-|Hne].
    - by rewrite lookup_insert_eq, Hl; simpl; rewrite children_resolved.
    - by rewrite lookup_insert_ne. }
  destruct (traverse_traversed s fuel None None h Hsh Hnd Hfuel)
    as (ht & Ht & Hspt & Houtt & _).
  destruct (traverse_traversed s fuel None None hb Hshb Hnd Hfuel)
    as (hb' & Htb & Hspb & Houtb & _).
  pose proof (root_not_below s Hnd) as Hroot.
  assert (Hlt : ht !! root s = Some o) by (by rewrite Houtt).
  exists hb', ht. split; [done|]. split; [done|].
  assert (Heq : hb' = <[root s := resolved o]> ht).
  { apply map_eq. intros ref. destruct (decide (root s = ref)) as [<-|Hne].
    - rewrite lookup_insert_eq, Houtb by done. apply lookup_insert_eq.
    - rewrite lookup_insert_ne by done.
      destruct (decide (ref ∈ flat_map refs (subs s))) as [Hin|Hout].
      + apply (traverse_agree s fuel None None hb h hb' ht Hshb Hsh Hnd Hfuel);
          [|done|done|done].
        intros r Hr. unfold hb. rewrite lookup_insert_ne; [done|].
        intros <-. by apply Hroot.
      + rewrite Houtb, Houtt by done. unfold hb. by rewrite lookup_insert_ne. }
  split; [by rewrite (parseBaseUri_resolved _ _ _ Hlt), Heq|].
  split.
  - intros ref Hne. by rewrite Heq, lookup_insert_ne.
  - by rewrite Heq, lookup_insert_eq, Hl.
Qed.

Lemma compile_store_commutes_witness :
  is_tree example_store example_shape ∧ height example_shape ≤ 3
  ∧ ∃ h' ht, compile_store 3 0 example_store = Some (0, h')
      ∧ traverse_document 3 0 example_store = Some (0, ht)
      ∧ parseBaseUri 0 ht = Some (0, h').
Proof.
  split; [exact example_is_tree|]. split; [vm_compute; lia|].
  destruct (compile_store_commutes example_store example_shape 3 example_is_tree)
    as (h' & ht & Hc & Ht & Hp & _); [vm_compute; lia|].
  by exists h', ht.
Defined.

(** ** Identifier collisions *)

Lemma is_underscore_eq c : is_underscore c = true → c = "_"%char.
Proof.
  unfold is_underscore. intros H%Nat.eqb_eq.
  rewrite <- (ascii_nat_embedding c), H. reflexivity.
Qed.

Lemma unit_collide c d :
  (if is_word_char c then c else "_"%char) = (if is_word_char d then d else "_"%char)
  ↔ c = d ∨ (is_alnum c = false ∧ is_alnum d = false).
Proof.
  unfold is_word_char, is_alnum.
  destruct (is_letter c || is_digit c) eqn:Ec, (is_letter d || is_digit d) eqn:Ed; simpl.
  - split; [by left | by intros [?|[? ?]]].
  - destruct (is_underscore d) eqn:Ud.
    + apply is_underscore_eq in Ud as ->. split; [by left | by intros [?|[? ?]]].
    + split; [intros -> | intros [->|[? ?]]]; [| |done]; by rewrite Ec in Ed || (exfalso; by compute in Ec).
  - destruct (is_underscore c) eqn:Uc.
    + apply is_underscore_eq in Uc as ->. split; [by left | by intros [?|[? ?]]].
    + split; [intros <- | intros [<-|[? ?]]]; [| |done]; by rewrite Ed in Ec || (exfalso; by compute in Ed).
  - split; [by right|]. intros _.
    destruct (is_underscore c) eqn:Uc, (is_underscore d) eqn:Ud;
      try apply is_underscore_eq in Uc; try apply is_underscore_eq in Ud; by subst.
Qed.

Lemma replace_nonword_collide : ∀ s t,
  replace_nonword s = replace_nonword t
  ↔ String.length s = String.length t
    ∧ ∀ i c d, String.get i s = Some c → String.get i t = Some d →
        c = d ∨ (is_alnum c = false ∧ is_alnum d = false).
Proof.
  induction s as [|c s IH]; intros [|d t]; simpl.
  - split; [|done]. intros _. split; [done|]. by intros [|i] c d.
  - split; [done | by intros [? _]].
  - split; [done | by intros [? _]].
  - split.
    + intros [= Hu Hs]. apply IH in Hs as [Hlen Hget]. split; [by rewrite Hlen|].
      intros [|i] c' d'; simpl; [|apply Hget].
      intros [= <-] [= <-]. by apply unit_collide.
    + intros [[= Hlen] Hget]. f_equal.
      * apply unit_collide, (Hget 0); reflexivity.
      * apply IH. split; [done|]. intros i. apply (Hget (S i)).
Qed.

(** Two resources get the same [uniqueId] exactly when their full URLs have
    the same length and differ only where neither holds a letter or a
    digit. *)
Theorem makeUniqueId_collide (r1 r2 : Obj) (url1 url2 : string) :
  plus (Obj.parentUrl r1) (Obj.relativeUri r1) = Some url1 →
  plus (Obj.parentUrl r2) (Obj.relativeUri r2) = Some url2 →
  (makeUniqueId r1 = makeUniqueId r2
   ↔ String.length url1 = String.length url2
     ∧ ∀ i c d, String.get i url1 = Some c → String.get i url2 = Some d →
         c = d ∨ (is_alnum c = false ∧ is_alnum d = false)).
Proof.
  intros H1 H2. unfold makeUniqueId. rewrite H1, H2. simpl.
  rewrite <- replace_nonword_collide. split; congruence.
Qed.

Lemma makeUniqueId_collide_witness :
  makeUniqueId (Obj.mk None VUndefined (Some "/a-b") None None (Some "") None None)
  = makeUniqueId (Obj.mk None VUndefined (Some "/a_b") None None (Some "") None None).
Proof.
  apply (makeUniqueId_collide _ _ "/a-b" "/a_b"); [reflexivity | reflexivity|].
  split; [reflexivity|].
  intros [|[|[|[|[|i]]]]] c d; simpl; intros [= <-] [= <-]; auto.
Defined.

(** ** Lock-icon helper, again *)

Lemma remove_one_null_schemes xs :
  List.filter (λ v, negb (is_null v)) (remove_one_null xs)
  = List.filter (λ v, negb (is_null v)) xs
  ∧ length (List.filter is_null (remove_one_null xs))
    = pred (length (List.filter is_null xs)).
Proof.
  induction xs as [|x xs [IH1 IH2]]; simpl; [done|].
  destruct (is_null x) eqn:E; simpl; rewrite ?E; simpl; [done|].
  by rewrite IH1, IH2.
Qed.

(** The helper never drops or reorders a scheme: the entries other than
    [null] are the same after the call, and the list holds one [null] entry
    fewer, if it held any. *)
Theorem lockIconHelper_keeps_schemes (securedBy : option (list JsValue)) :
  List.filter (λ v, negb (is_null v)) (default [] (lockIconHelper securedBy).2)
  = List.filter (λ v, negb (is_null v)) (default [] securedBy)
  ∧ length (List.filter is_null (default [] (lockIconHelper securedBy).2))
    = pred (length (List.filter is_null (default [] securedBy))).
Proof.
  destruct securedBy as [xs|]; [|done].
  rewrite lockIconHelper_unfold. apply remove_one_null_schemes.
Qed.

(** On a list with at most one [null] entry a second call gives the same
    value as the first and leaves the list as the first call left it. *)
Theorem lockIconHelper_stable (xs : list JsValue) :
  length (List.filter is_null xs) ≤ 1 →
  lockIconHelper (lockIconHelper (Some xs)).2 = lockIconHelper (Some xs).
Proof.
  intros Hone. rewrite lockIconHelper_unfold. cbn [snd]. rewrite lockIconHelper_unfold.
  by rewrite (proj2 (remove_one_null_id _) (remove_one_null_rest xs Hone)).
Qed.

Lemma lockIconHelper_stable_witness :
  length (List.filter is_null [VNull; VString "oauth2"]) ≤ 1
  ∧ lockIconHelper (lockIconHelper (Some [VNull; VString "oauth2"])).2
    = lockIconHelper (Some [VNull; VString "oauth2"]).
Proof.
  split; [vm_compute; lia|].
  apply (lockIconHelper_stable [VNull; VString "oauth2"]). vm_compute. lia.
Defined.

(** ** Base-URI resolver, again *)

Lemma set_baseUri_same o uri : Obj.baseUri o = Some uri → Obj.set_baseUri uri o = o.
Proof. destruct o. simpl. by intros ->. Qed.

(** The resolver writes to the document only, and to its [baseUri] only; a
    base URI that does not hold [{version}] leaves the store as it was. *)
Theorem parseBaseUri_frame (h : Heap) (ramlObj : loc) (o : Obj) :
  h !! ramlObj = Some o →
  ∃ o', parseBaseUri ramlObj h = Some (ramlObj, <[ramlObj := o']> h)
    ∧ (∀ uri, Obj.set_baseUri uri o' = Obj.set_baseUri uri o)
    ∧ ((∀ before after, Obj.baseUri o ≠ Some (before +:+ "{version}" +:+ after)) →
       parseBaseUri ramlObj h = Some (ramlObj, h)).
Proof.
  intros Hl. exists (resolved o). rewrite (parseBaseUri_resolved _ _ _ Hl).
  split; [done|]. split.
  - intros uri. unfold resolved. destruct (Obj.baseUri o) as [u|]; [|done].
    by destruct (truthy (VString u)).
  - intros Hno. do 2 f_equal. apply insert_id. rewrite Hl. f_equal. symmetry.
    unfold resolved. destruct (Obj.baseUri o) as [u|] eqn:E; [|done].
    destruct (truthy (VString u)); [|done].
    rewrite replace_no_occurrence; [by apply set_baseUri_same|].
    intros before after ->. by apply (Hno before after).
Qed.

Lemma parseBaseUri_frame_witness :
  ∃ o, example_store !! 1 = Some o
    ∧ parseBaseUri 1 example_store = Some (1, example_store).
Proof.
  eexists. split; [reflexivity|].
  destruct (parseBaseUri_frame example_store 1 _ eq_refl) as (o' & _ & _ & Hno).
  apply Hno. intros before after. discriminate.
Defined.

(** ** Command line, again *)




(** [-i] without a value leaves [true] as the input: the run ends with the
    loader's argument error and status 1, whatever the positional arguments,
    and never prints the usage. *)
Theorem main_flag_without_value (w : World) (program : Program) :
  input program = VBoolean true →
  main w program
  = [ConsoleLog ("Error parsing: Error: sourceToRamlObj: "
                 +:+ "You must supply either file, data or obj as source.");
     Exit 1].
Proof. unfold main. by intros ->. Qed.

Lemma main_flag_without_value_witness :
  main html_world {| input := VBoolean true; output := VUndefined; args := ["api.raml"] |}
  = [ConsoleLog ("Error parsing: Error: sourceToRamlObj: "
                 +:+ "You must supply either file, data or obj as source.");
     Exit 1].
Proof. apply (main_flag_without_value html_world). reflexivity. Defined.

(** ** Rendering context *)

Lemma assign_all_other options : ∀ props k,
  k ∉ options.*1 → assign_all options props !! k = props !! k.
Proof.
  induction options as [|[k' v'] options IH]; intros props k Hk; [done|].
  simpl in *. apply not_elem_of_cons in Hk as [Hne Hk].
  unfold assign_all in *. simpl. rewrite IH by done. by rewrite lookup_insert_ne.
Qed.

Lemma assign_all_option options : ∀ props k v,
  NoDup options.*1 → (k, v) ∈ options → assign_all options props !! k = Some v.
Proof.
  induction options as [|[k' v'] options IH]; intros props k v Hnd Hin;
    [by apply elem_of_nil in Hin|].
  simpl in Hnd. apply NoDup_cons in Hnd as [Hk' Hnd].
  apply elem_of_cons in Hin as [[= -> ->]|Hin].
  - change (assign_all ((k', v') :: options) props)
      with (assign_all options (<[k' := v']> props)).
    rewrite assign_all_other by done. apply lookup_insert_eq.
  - change (assign_all ((k', v') :: options) props)
      with (assign_all options (<[k' := v']> props)).
    by apply IH.
Qed.

(** A template option takes the place of whatever the document holds under
    its name, [config] and [helpers] included.  Under a name that is no
    template option the document keeps its own property, except for
    [config], which is the configuration, and for [helpers], which is the
    configuration's helpers when the engine is not handlebars. *)
Theorem compile_context_keys (config helpers : JsValue) (templateEngine : string)
    (templateOptions : option (list (string * JsValue)))
    (props : gmap string JsValue) :
  let options := default [] templateOptions in
  let context := compile_context config helpers templateEngine templateOptions props in
  (NoDup options.*1 → ∀ k v, (k, v) ∈ options → context !! k = Some v)
  ∧ (∀ k, k ∉ options.*1 →
       context !! k
       = if decide (k = "config") then Some config
         else if decide (k = "helpers" ∧ templateEngine ≠ "handlebars")
              then Some helpers else props !! k).
Proof.
  cbv zeta. unfold compile_context.
  assert (He : negb (String.eqb templateEngine "handlebars")
               = bool_decide (templateEngine ≠ "handlebars")).
  { destruct (String.eqb_spec templateEngine "handlebars") as [->|Hne].
    - symmetry. apply bool_decide_eq_false_2. by intros H.
    - symmetry. by apply bool_decide_eq_true_2. }
  rewrite He. clear He. split.
  - intros Hnd k v Hin. destruct templateOptions as [options|];
      [by apply assign_all_option | by apply elem_of_nil in Hin].
  - intros k Hk.
    assert (Hrest : (match templateOptions with
                     | Some options =>
                         assign_all options
                           (if bool_decide (templateEngine ≠ "handlebars")
                            then <["helpers" := helpers]> (<["config" := config]> props)
                            else <["config" := config]> props)
                     | None =>
                         if bool_decide (templateEngine ≠ "handlebars")
                         then <["helpers" := helpers]> (<["config" := config]> props)
                         else <["config" := config]> props
                     end) !! k
                    = (if bool_decide (templateEngine ≠ "handlebars")
                       then <["helpers" := helpers]> (<["config" := config]> props)
                       else <["config" := config]> props) !! k).
    { destruct templateOptions as [options|]; [by apply assign_all_other | done]. }
    rewrite Hrest. clear Hrest.
    destruct (decide (k = "config")) as [->|Hc].
    + case_bool_decide; [rewrite lookup_insert_ne by done|]; apply lookup_insert_eq.
    + case_bool_decide as He.
      * destruct (decide (k = "helpers")) as [->|Hh].
        -- rewrite lookup_insert_eq. by rewrite decide_True.
        -- rewrite !lookup_insert_ne by done. rewrite decide_False; [done|].
           by intros [? _].
      * rewrite lookup_insert_ne by done. rewrite decide_False; [done|].
        by intros [_ ?].
Qed.

Lemma compile_context_keys_witness :
  NoDup [("title", VString "API"); ("config", VNull)].*1
  ∧ compile_context (VObject 7) (VObject 8) "handlebars"
      (Some [("title", VString "API"); ("config", VNull)])
      {[ "title" := VString "from the document" ]} !! "config"
    = Some VNull.
Proof.
  assert (Hnd : NoDup [("title", VString "API"); ("config", VNull)].*1).
  { apply (bool_decide_unpack _). vm_compute. exact I. }
  split; [exact Hnd|].
  apply (compile_context_keys (VObject 7) (VObject 8) "handlebars"
           (Some [("title", VString "API"); ("config", VNull)])
           {[ "title" := VString "from the document" ]}); [exact Hnd|].
  apply elem_of_cons. right. apply list_elem_of_here.
Defined.
